(** * Loupe: a frei0r mixer that magnifies regions of a frame

    Verification of [src/filter/loupe/loupe.cpp].

    Number model.  A C++ [double] is modelled by a real number ([R]): the
    arithmetic of the filter is the exact one, without the rounding error of
    binary64.  The only operations of the filter that can leave the finite
    numbers are its two divisions by a configurable value (the fade duration
    and the zoom); their results have the type [double] below, which adds the
    IEEE 754 special values to the reals.  Signed zeros are not modelled.
    An [int] is an integer of [Z]; the conversion of a [double] to an [int]
    truncates toward zero.  Overflow of [int] is not modelled: a conversion
    whose result does not fit is undefined in C++.

    The reals do not compute; the geometry of a region is also given on
    rational inputs ([region_info_Q]), where it does, and shown to agree. *)

From Stdlib Require Import Reals Lra Lia ZArith QArith Qreals List Bool.
From Stdlib Require String Ascii DecimalString.
Import ListNotations.

Open Scope R_scope.

(** ** Numbers *)

(** The result of a division of doubles: a finite value, an infinity, or
    not-a-number. *)
Inductive double : Type :=
| Fin (r : R)
| PInf
| NInf
| NaN.

(** [x / y] on finite operands, IEEE 754: a nonzero value over zero is an
    infinity of its sign, zero over zero is not a number. *)
Definition ddiv (x y : R) : double :=
  if Req_dec_T y 0 then
    if Rlt_dec 0 x then PInf
    else if Rlt_dec x 0 then NInf
    else NaN
  else Fin (x / y).

(** [d > c] and [d < c] for a finite [c]; every comparison with NaN is false. *)
Definition dgt (d : double) (c : R) : bool :=
  match d with
  | Fin r => if Rlt_dec c r then true else false
  | PInf => true
  | NInf => false
  | NaN => false
  end.

Definition dlt (d : double) (c : R) : bool :=
  match d with
  | Fin r => if Rlt_dec r c then true else false
  | PInf => false
  | NInf => true
  | NaN => false
  end.

(** Conversion of a double to [int]: the fractional part is discarded. *)
Definition trunc (x : R) : Z :=
  if Rle_dec 0 x then Zfloor x else Zceil x.

(** [a / b] on [int]: the quotient rounded toward zero. *)
Definition idiv (a b : Z) : Z := Z.quot a b.

(** Conversions between [int] and [unsigned], both 32 bits wide. *)
Definition to_unsigned (z : Z) : Z := (z mod 2 ^ 32)%Z.

Definition to_int (z : Z) : Z :=
  ((z + 2 ^ 31) mod 2 ^ 32 - 2 ^ 31)%Z.

(** ** Helpers of the filter (lines 17-27) *)

(** [lerp]: the factor is clamped to [0,1] before use. *)
Definition lerp (f a b : R) : R :=
  let f := if Rlt_dec 1 f then 1 else f in
  let f := if Rlt_dec f 0 then 0 else f in
  (1 - f) * a + f * b.

Definition ease_in_out_sine (t : R) : R :=
  - (cos (PI * t) - 1) / 2.

(** [ease_in_out_sine] on the result of a division; the cosine of an
    infinity or of NaN is NaN. *)
Definition dease (d : double) : double :=
  match d with
  | Fin r => Fin (ease_in_out_sine r)
  | _ => NaN
  end.

(** ** Configuration *)

(** Modelled from the spec: the type [f0r_param_position] of the frei0r
    header, which is not among the sources; a position is a pair (x, y) of
    scalars. *)
Record f0r_param_position : Type := mkPos {
  x : R;
  y : R
}.

Record Region : Type := mkRegion {
  enable : bool;
  srcCenter : f0r_param_position;
  srcSize : f0r_param_position;
  dstCenter : f0r_param_position;
  dstZoom : R
}.

(** The number of regions of a filter instance. *)
Definition numRegions : nat := 3.

(** Modelled from the spec: the fields [width] and [height], which the
    filter inherits from [frei0r::fx] of the frei0r header, not among the
    sources; they are the frame width and height in pixels, set at
    construction, and are [unsigned].  The other fields are the members of
    lines 237-244. *)
Record Loupe : Type := mkLoupe {
  width : N;
  height : N;
  showWireframe : bool;
  showMagnified : bool;
  outlineWidth : R;
  pointerWidth : R;
  pointerOutlineWidth : R;
  fadeDuration : R;
  endTime : R;
  regions : list Region
}.

(** An [unsigned] frame dimension as a double. *)
Definition dim (n : N) : R := IZR (Z.of_N n).

(** The constructor (lines 40-55). *)
Definition default_region : Region :=
  {| enable := false;
     srcCenter := mkPos (1 / 2) (1 / 2);
     srcSize := mkPos (1 / 2) (1 / 2);
     dstCenter := mkPos (1 / 2) (1 / 2);
     dstZoom := 2 / 10 |}.

Definition Loupe_new (w h : N) : Loupe :=
  {| width := w;
     height := h;
     showWireframe := true;
     showMagnified := true;
     outlineWidth := 3 / 100;
     pointerWidth := 6 / 100;
     pointerOutlineWidth := 3 / 100;
     fadeDuration := 1 / 10;
     endTime := 1 / 100;
     regions := repeat default_region numRegions |}.

(** ** The fade factor (lines 99-106) *)

(** The fade of a frame from the time and the effective end time and fade
    duration, both in seconds. *)
Definition computeFade (time endTime fadeDuration : R) : double :=
  let fade := ddiv (Rmin time (endTime - time)) fadeDuration in
  let fade := if dgt fade 1 then Fin 1 else fade in
  let fade := if dlt fade 0 then Fin 0 else fade in
  dease fade.

(** The fade of a frame of the filter: the parameters are scaled to seconds
    first. *)
Definition update_fade (this : Loupe) (time : R) : double :=
  let fadeDuration := fadeDuration this * 10 in
  let endTime := endTime this * 1000 in
  computeFade time endTime fadeDuration.

(** ** Region geometry (lines 121-150) *)

Record Info : Type := mkInfo {
  srcWidth : Z;
  srcHeight : Z;
  srcX0 : Z;
  srcY0 : Z;
  realZoom : R;
  dstWidth : Z;
  dstHeight : Z;
  dstX0 : Z;
  dstY0 : Z
}.

(** One iteration of the loop of lines 128-150, for a finite fade. *)
Definition region_info (r : Region) (fade : R) (width height : N) : Info :=
  let srcWidth := trunc (x (srcSize r) * dim height + 1 / 2) in
  let srcHeight := trunc (y (srcSize r) * dim height + 1 / 2) in
  let srcX0 :=
    trunc ((x (srcCenter r) * 2 - 1 / 2) * dim width
           - IZR (idiv srcWidth 2) + 1 / 2) in
  let srcY0 :=
    trunc ((y (srcCenter r) * 2 - 1 / 2) * dim height
           - IZR (idiv srcHeight 2) + 1 / 2) in
  let realZoom := lerp fade 1 (dstZoom r * 10) in
  let dstWidth := trunc (IZR srcWidth * realZoom + 1 / 2) in
  let dstHeight := trunc (IZR srcHeight * realZoom + 1 / 2) in
  let dstX0 :=
    trunc ((lerp fade (x (srcCenter r)) (x (dstCenter r)) * 2 - 1 / 2)
           * dim width
           - IZR (idiv dstWidth 2) + 1 / 2) in
  let dstY0 :=
    trunc ((lerp fade (y (srcCenter r)) (y (dstCenter r)) * 2 - 1 / 2)
           * dim height
           - IZR (idiv dstHeight 2) + 1 / 2) in
  {| srcWidth := srcWidth; srcHeight := srcHeight;
     srcX0 := srcX0; srcY0 := srcY0;
     realZoom := realZoom;
     dstWidth := dstWidth; dstHeight := dstHeight;
     dstX0 := dstX0; dstY0 := dstY0 |}.

(** ** Region geometry on rational inputs

    The operations of [lerp] and of [region_info] on rational numbers, where
    they compute.  [region_info_Q_correct] shows that the result is the one
    of [region_info] on the same inputs read as reals. *)

(** The conversion to [int] of a fraction: the quotient of the numerator by
    the denominator, rounded toward zero. *)
Definition truncQ (q : Q) : Z := Z.quot (Qnum q) (Zpos (Qden q)).

Definition lerpQ (f a b : Q) : Q :=
  let f := if Qlt_le_dec 1 f then 1%Q else f in
  let f := if Qlt_le_dec f 0 then 0%Q else f in
  ((1 - f) * a + f * b)%Q.

Record RegionQ : Type := mkRegionQ {
  srcCenterQ : Q * Q;
  srcSizeQ : Q * Q;
  dstCenterQ : Q * Q;
  dstZoomQ : Q
}.

Record InfoQ : Type := mkInfoQ {
  srcWidthQ : Z;
  srcHeightQ : Z;
  srcX0Q : Z;
  srcY0Q : Z;
  realZoomQ : Q;
  dstWidthQ : Z;
  dstHeightQ : Z;
  dstX0Q : Z;
  dstY0Q : Z
}.

Definition dimQ (n : N) : Q := inject_Z (Z.of_N n).

Definition region_info_Q (r : RegionQ) (fade : Q) (width height : N)
  : InfoQ :=
  let half := (1 # 2)%Q in
  let srcWidth := truncQ (fst (srcSizeQ r) * dimQ height + half)%Q in
  let srcHeight := truncQ (snd (srcSizeQ r) * dimQ height + half)%Q in
  let srcX0 :=
    truncQ ((fst (srcCenterQ r) * 2 - half) * dimQ width
            - inject_Z (idiv srcWidth 2) + half)%Q in
  let srcY0 :=
    truncQ ((snd (srcCenterQ r) * 2 - half) * dimQ height
            - inject_Z (idiv srcHeight 2) + half)%Q in
  let realZoom := lerpQ fade 1 (dstZoomQ r * 10)%Q in
  let dstWidth := truncQ (inject_Z srcWidth * realZoom + half)%Q in
  let dstHeight := truncQ (inject_Z srcHeight * realZoom + half)%Q in
  let dstX0 :=
    truncQ ((lerpQ fade (fst (srcCenterQ r)) (fst (dstCenterQ r)) * 2 - half)
            * dimQ width
            - inject_Z (idiv dstWidth 2) + half)%Q in
  let dstY0 :=
    truncQ ((lerpQ fade (snd (srcCenterQ r)) (snd (dstCenterQ r)) * 2 - half)
            * dimQ height
            - inject_Z (idiv dstHeight 2) + half)%Q in
  {| srcWidthQ := srcWidth; srcHeightQ := srcHeight;
     srcX0Q := srcX0; srcY0Q := srcY0;
     realZoomQ := realZoom;
     dstWidthQ := dstWidth; dstHeightQ := dstHeight;
     dstX0Q := dstX0; dstY0Q := dstY0 |}.

(** A rational region and a rational geometry read as real ones. *)
Definition Region_of_Q (e : bool) (r : RegionQ) : Region :=
  {| enable := e;
     srcCenter := mkPos (Q2R (fst (srcCenterQ r))) (Q2R (snd (srcCenterQ r)));
     srcSize := mkPos (Q2R (fst (srcSizeQ r))) (Q2R (snd (srcSizeQ r)));
     dstCenter := mkPos (Q2R (fst (dstCenterQ r))) (Q2R (snd (dstCenterQ r)));
     dstZoom := Q2R (dstZoomQ r) |}.

Definition Info_of_Q (i : InfoQ) : Info :=
  {| srcWidth := srcWidthQ i; srcHeight := srcHeightQ i;
     srcX0 := srcX0Q i; srcY0 := srcY0Q i;
     realZoom := Q2R (realZoomQ i);
     dstWidth := dstWidthQ i; dstHeight := dstHeightQ i;
     dstX0 := dstX0Q i; dstY0 := dstY0Q i |}.

(** ** The cairo interface

    The filter draws through the cairo library, which is not part of the
    repository.  A frame is described by the sequence of drawing calls the
    filter issues on its context [cr]; each constructor is the cairo function
    of the same name with the arguments it receives.  Creation and
    destruction of the context and of the surfaces are not drawing calls and
    are left out of the sequence. *)

(** A pixel is 32 bits wide, packed ARGB. *)
Definition pixel : Type := N.

Inductive cairo_operator_t : Type :=
| CAIRO_OPERATOR_OVER
| CAIRO_OPERATOR_SOURCE
| CAIRO_OPERATOR_DIFFERENCE.

(** An image surface over caller-owned pixel data. *)
Record cairo_surface_t : Type := mkSurface {
  surface_data : list pixel;
  surface_width : N;
  surface_height : N;
  surface_stride : N
}.

(** The stride in bytes of a row of [CAIRO_FORMAT_ARGB32]. *)
Definition cairo_format_stride_for_width (w : N) : N := (4 * w)%N.

Definition cairo_image_surface_create_for_data
    (data : list pixel) (w h stride : N) : cairo_surface_t :=
  {| surface_data := data; surface_width := w; surface_height := h;
     surface_stride := stride |}.

Inductive cairo_call : Type :=
| cairo_set_source_surface (s : cairo_surface_t) (sx sy : R)
| cairo_set_source_rgb (red green blue : R)
| cairo_set_operator (op : cairo_operator_t)
| cairo_set_line_width (w : R)
| cairo_rectangle (rx ry rw rh : R)
| cairo_move_to (px py : R)
| cairo_line_to (px py : R)
| cairo_arc (xc yc radius angle1 angle2 : R)
| cairo_fill
| cairo_fill_preserve
| cairo_stroke
| cairo_paint
| cairo_clip
| cairo_scale (sx sy : R)
| cairo_translate (tx ty : double)
| cairo_save
| cairo_restore.

(** ** The frame compositor (lines 108-224) *)

(** Lines 115-119: the original image is drawn first. *)
Definition draw_original (this : Loupe) (src : cairo_surface_t)
  : list cairo_call :=
  [ cairo_set_source_surface src 0 0;
    cairo_set_operator CAIRO_OPERATOR_SOURCE;
    cairo_rectangle 0 0 (dim (width this)) (dim (height this));
    cairo_fill ].

(** Lines 158-197: the body of the first drawing loop for an enabled region,
    with [i] and [r] the entries of [info] and [regions] of the region. *)
Definition draw_magnified (this : Loupe) (fade : R) (src : cairo_surface_t)
    (i : Info) (r : Region) : list cairo_call :=
  let bw := lerp fade 0 (pointerWidth this * 100 * dim (height this) / 1080) in
  let bw2 :=
    lerp fade 0 (pointerOutlineWidth this * 100 * dim (height this) / 1080) in
  let w :=
    lerp (fade * 3) 0 (outlineWidth this * 100 * dim (height this) / 1080) in
  [ cairo_save;
    cairo_set_operator CAIRO_OPERATOR_OVER;
    (* the pointer bubble to the source location *)
    cairo_save;
    cairo_set_line_width bw;
    cairo_set_source_rgb 0 0 0;
    cairo_move_to (IZR (srcX0 i + idiv (srcWidth i) 2))
                  (IZR (srcY0 i + idiv (srcHeight i) 2));
    cairo_line_to (IZR (dstX0 i + idiv (dstWidth i) 2))
                  (IZR (dstY0 i + idiv (dstHeight i) 2));
    cairo_stroke;
    cairo_set_line_width bw2;
    cairo_arc (IZR (srcX0 i + idiv (srcWidth i) 2))
              (IZR (srcY0 i + idiv (srcHeight i) 2))
              (bw + bw2 / 2) 0 (2 * PI);
    cairo_set_source_rgb 0 0 0;
    cairo_fill_preserve;
    cairo_set_source_rgb 1 1 1;
    cairo_stroke;
    cairo_restore;
    (* the magnified image *)
    cairo_save;
    cairo_rectangle (IZR (dstX0 i)) (IZR (dstY0 i))
                    (IZR (dstWidth i)) (IZR (dstHeight i));
    cairo_clip;
    cairo_scale (realZoom i) (realZoom i);
    cairo_translate (Fin (IZR (- srcX0 i))) (Fin (IZR (- srcY0 i)));
    cairo_translate (ddiv (IZR (dstX0 i)) (realZoom i))
                    (ddiv (IZR (dstY0 i)) (realZoom i));
    cairo_set_source_surface src 0 0;
    cairo_paint;
    cairo_restore;
    (* the outline *)
    cairo_rectangle (IZR (dstX0 i) - w / 2) (IZR (dstY0 i) - w / 2)
                    (IZR (dstWidth i) + w) (IZR (dstHeight i) + w);
    cairo_set_source_rgb 1 1 1;
    cairo_set_line_width w;
    cairo_stroke;
    cairo_restore ].

(** Lines 201-215: the lambda [drawFrame]; its parameters are [unsigned]. *)
Definition drawFrame (ux uy uw uh : Z) : list cairo_call :=
  let wft := 3 in
  let crossSize := 10%Z in
  let cx := to_int (to_unsigned (ux + uw / 2)%Z) in
  let cy := to_int (to_unsigned (uy + uh / 2)%Z) in
  [ cairo_set_line_width 3;
    cairo_set_operator CAIRO_OPERATOR_DIFFERENCE;
    cairo_rectangle (IZR ux - wft / 2) (IZR uy - wft / 2)
                    (IZR uw + wft) (IZR uh + wft);
    cairo_stroke;
    cairo_move_to (IZR (cx - crossSize)) (IZR (cy - crossSize));
    cairo_line_to (IZR (cx + crossSize)) (IZR (cy + crossSize));
    cairo_move_to (IZR (cx - crossSize)) (IZR (cy + crossSize));
    cairo_line_to (IZR (cx + crossSize)) (IZR (cy - crossSize));
    cairo_stroke ].

(** Lines 220-223: the body of the second drawing loop for an enabled
    region; the [int] fields of [info] are converted to [unsigned]. *)
Definition draw_wireframe (i : Info) : list cairo_call :=
  [ cairo_set_source_rgb 1 (1 / 2) (1 / 2) ]
  ++ drawFrame (to_unsigned (srcX0 i)) (to_unsigned (srcY0 i))
               (to_unsigned (srcWidth i)) (to_unsigned (srcHeight i))
  ++ [ cairo_set_source_rgb (1 / 2) 1 (1 / 2) ]
  ++ drawFrame (to_unsigned (dstX0 i)) (to_unsigned (dstY0 i))
               (to_unsigned (dstWidth i)) (to_unsigned (dstHeight i)).

(** Lines 128-150: the array [info].  The geometry of a region is computed
    from the fade; when the fade is not a finite number (it can only be NaN,
    see [computeFade_cases]) the zoom is NaN and the conversions of lines
    138-149 to [int] are undefined, which [None] stands for. *)
Definition compute_info (this : Loupe) (fade : double)
  : list (option Info) :=
  map (fun r =>
         match fade with
         | Fin f => Some (region_info r f (width this) (height this))
         | _ => None
         end)
      (firstn numRegions (regions this)).

(** Lines 153-198: the loop over the regions that draws the magnified
    images.  The loop condition reads [showMagnified] at every iteration and
    a disabled region is skipped.  The result is [None] when an enabled
    region is drawn from an undefined geometry. *)
Fixpoint magnified_loop (this : Loupe) (fade : double)
    (src : cairo_surface_t) (rs : list (Region * option Info))
  : option (list cairo_call) :=
  match rs with
  | [] => Some []
  | (r, i) :: rs' =>
      if negb (showMagnified this) then Some []
      else if negb (enable r) then magnified_loop this fade src rs'
      else
        match fade, i, magnified_loop this fade src rs' with
        | Fin f, Some i, Some rest =>
            Some (draw_magnified this f src i r ++ rest)
        | _, _, _ => None
        end
  end.

(** Lines 216-224: the loop over the regions that draws the debug
    overlays. *)
Fixpoint wireframe_loop (this : Loupe) (rs : list (Region * option Info))
  : option (list cairo_call) :=
  match rs with
  | [] => Some []
  | (r, i) :: rs' =>
      if negb (showWireframe this) then Some []
      else if negb (enable r) then wireframe_loop this rs'
      else
        match i, wireframe_loop this rs' with
        | Some i, Some rest => Some (draw_wireframe i ++ rest)
        | _, _ => None
        end
  end.

(** The drawing calls of one frame, in order. *)
Definition update_calls (this : Loupe) (fade : double)
    (src : cairo_surface_t) : option (list cairo_call) :=
  let info := compute_info this fade in
  let rs := combine (firstn numRegions (regions this)) info in
  match magnified_loop this fade src rs, wireframe_loop this rs with
  | Some magnified, Some wireframe =>
      Some (draw_original this src ++ magnified ++ wireframe)
  | _, _ => None
  end.

Section Update.

(** The pixels of the target surface after a sequence of drawing calls on a
    fresh context for it: the rasterisation done by cairo. *)
Variable cairo_exec : list cairo_call -> cairo_surface_t -> list pixel.

(** [Loupe::update]: the destination pixels after the frame, from the time
    and the three pixel buffers the host passes. *)
Definition update (this : Loupe) (time : R)
    (rawDst rawSrc2 rawSrc : list pixel) : option (list pixel) :=
  let fade := update_fade this time in
  let stride := cairo_format_stride_for_width (width this) in
  let dst :=
    cairo_image_surface_create_for_data
      rawDst (width this) (height this) stride in
  let src :=
    cairo_image_surface_create_for_data
      rawSrc (width this) (height this) stride in
  match update_calls this fade src with
  | Some calls => Some (cairo_exec calls dst)
  | None => None
  end.

(** What the filter relies on for its first drawing step: filling the
    rectangle of the whole target with operator SOURCE from a surface of the
    same geometry placed at the origin replaces every pixel of the target by
    the pixel of that surface. *)
Definition fill_source_copies : Prop :=
  forall (s t : cairo_surface_t),
    surface_width s = surface_width t ->
    surface_height s = surface_height t ->
    surface_stride s = surface_stride t ->
    cairo_exec
      [ cairo_set_source_surface s 0 0;
        cairo_set_operator CAIRO_OPERATOR_SOURCE;
        cairo_rectangle 0 0 (dim (surface_width t)) (dim (surface_height t));
        cairo_fill ] t
    = surface_data s.

End Update.

(** A rasteriser that implements the surface copy only: the target takes the
    pixels of the surface set as source by the first call, and every other
    call leaves it as it is. *)
Definition copy_exec (calls : list cairo_call) (t : cairo_surface_t)
  : list pixel :=
  match calls with
  | cairo_set_source_surface s _ _ :: _ => surface_data s
  | _ => surface_data t
  end.

(** ** Statements of the specification *)

(** [z] is an integer nearest to [u]; a tie may go either way. *)
Definition nearest (z : Z) (u : R) : Prop := Rabs (IZR z - u) <= 1 / 2.

(** The source rectangle as the specification writes it: every field is the
    rounding of a real expression, and the halves are exact. *)
Definition spec_source_rect (r : Region) (W H : N) (i : Info) : Prop :=
  nearest (srcWidth i) (x (srcSize r) * dim H) /\
  nearest (srcHeight i) (y (srcSize r) * dim H) /\
  nearest (srcX0 i)
    ((x (srcCenter r) * 2 - 1 / 2) * dim W - IZR (srcWidth i) / 2) /\
  nearest (srcY0 i)
    ((y (srcCenter r) * 2 - 1 / 2) * dim H - IZR (srcHeight i) / 2).

(** The source rectangle as the code computes it: a half is added and the
    sum is converted to [int], and the halves are quotients of [int]. *)
Definition code_source_rect (r : Region) (W H : N) (i : Info) : Prop :=
  srcWidth i = trunc (x (srcSize r) * dim H + 1 / 2) /\
  srcHeight i = trunc (y (srcSize r) * dim H + 1 / 2) /\
  srcX0 i =
    trunc ((x (srcCenter r) * 2 - 1 / 2) * dim W
           - IZR (Z.quot (srcWidth i) 2) + 1 / 2) /\
  srcY0 i =
    trunc ((y (srcCenter r) * 2 - 1 / 2) * dim H
           - IZR (Z.quot (srcHeight i) 2) + 1 / 2).

(** The roundings of the specification with the halves of the code: the
    [int] quotient of the size by 2. *)
Definition int_half_source_rect (r : Region) (W H : N) (i : Info) : Prop :=
  nearest (srcWidth i) (x (srcSize r) * dim H) /\
  nearest (srcHeight i) (y (srcSize r) * dim H) /\
  nearest (srcX0 i)
    ((x (srcCenter r) * 2 - 1 / 2) * dim W - IZR (Z.quot (srcWidth i) 2)) /\
  nearest (srcY0 i)
    ((y (srcCenter r) * 2 - 1 / 2) * dim H - IZR (Z.quot (srcHeight i) 2)).

(** The destination rectangle as the code computes it from the fade. *)
Definition code_dest_rect (r : Region) (fade : R) (W H : N) (i : Info)
  : Prop :=
  realZoom i = lerp fade 1 (dstZoom r * 10) /\
  dstWidth i = trunc (IZR (srcWidth i) * realZoom i + 1 / 2) /\
  dstHeight i = trunc (IZR (srcHeight i) * realZoom i + 1 / 2) /\
  dstX0 i =
    trunc ((lerp fade (x (srcCenter r)) (x (dstCenter r)) * 2 - 1 / 2)
           * dim W
           - IZR (Z.quot (dstWidth i) 2) + 1 / 2) /\
  dstY0 i =
    trunc ((lerp fade (y (srcCenter r)) (y (dstCenter r)) * 2 - 1 / 2)
           * dim H
           - IZR (Z.quot (dstHeight i) 2) + 1 / 2).

(** The centre of a rectangle along one axis, from its origin and size. *)
Definition rect_center (x0 w : Z) : R := IZR x0 + IZR w / 2.

(** Two coordinates agree within rounding: the origin, the size and its
    half are each rounded by less than one pixel, and the centre moves by
    less than two. *)
Definition within_rounding (c target : R) : Prop := Rabs (c - target) < 2.

(** The resolved region at full fade as the specification states it: the
    centre of the destination rectangle is the destination centre scaled by
    the frame dimension. *)
Definition spec_full_fade (r : Region) (W H : N) (i : Info) : Prop :=
  realZoom i = dstZoom r * 10 /\
  within_rounding (rect_center (dstX0 i) (dstWidth i))
                  (x (dstCenter r) * dim W) /\
  within_rounding (rect_center (dstY0 i) (dstHeight i))
                  (y (dstCenter r) * dim H).

(** The resolved region at full fade as the code has it: the destination
    centre goes through the same remapping as the source centre. *)
Definition code_full_fade (r : Region) (W H : N) (i : Info) : Prop :=
  realZoom i = dstZoom r * 10 /\
  within_rounding (rect_center (dstX0 i) (dstWidth i))
                  ((x (dstCenter r) * 2 - 1 / 2) * dim W) /\
  within_rounding (rect_center (dstY0 i) (dstHeight i))
                  ((y (dstCenter r) * 2 - 1 / 2) * dim H).

(** The destination rectangle coincides with the source rectangle and the
    region is not zoomed. *)
Definition dest_equals_source (i : Info) : Prop :=
  dstX0 i = srcX0 i /\ dstY0 i = srcY0 i /\
  dstWidth i = srcWidth i /\ dstHeight i = srcHeight i /\
  realZoom i = 1.

(** No size of the resolved region is negative, nor is its zoom. *)
Definition sizes_nonneg (i : Info) : Prop :=
  (0 <= srcWidth i)%Z /\ (0 <= srcHeight i)%Z /\
  (0 <= dstWidth i)%Z /\ (0 <= dstHeight i)%Z /\
  0 <= realZoom i.

(** The sizes of the resolved region fit a frame of height [H]: the source
    size is at most the height and the destination size at most ten times
    the height, so that their conversions to [int] are defined for every
    frame less than 2^31 / 10 pixels high. *)
Definition sizes_fit (H : N) (i : Info) : Prop :=
  (srcWidth i <= Z.of_N H)%Z /\ (srcHeight i <= Z.of_N H)%Z /\
  (dstWidth i <= 10 * Z.of_N H)%Z /\ (dstHeight i <= 10 * Z.of_N H)%Z.

(** The divisor of the paint transform (line 185) is not zero for a zoom
    parameter and a fade in the unit interval. *)
Definition paint_divisor_nonzero (r : Region) (fade : R) (W H : N) : Prop :=
  0 <= dstZoom r <= 1 -> 0 <= fade <= 1 ->
  realZoom (region_info r fade W H) <> 0.

(** A fade factor in the unit interval. *)
Definition unit_fade (d : double) : Prop :=
  exists f, d = Fin f /\ 0 <= f <= 1.

(** A fade factor that is 1 up to one hundredth. *)
Definition approx_one (d : double) : Prop :=
  exists f, d = Fin f /\ Rabs (f - 1) <= 1 / 100.

(** The effect is fully faded in half way to the end time, for a fade
    duration that is positive and at most the end time. *)
Definition midpoint_fully_faded (endTime fadeDuration : R) : Prop :=
  0 < fadeDuration -> fadeDuration <= endTime ->
  approx_one (computeFade (endTime / 2) endTime fadeDuration).

(** ** Example regions *)

(** A region on the left and top border of the frame, and one of odd size. *)
Definition border_region : Region :=
  {| enable := true;
     srcCenter := mkPos 0 0;
     srcSize := mkPos (2 / 10) (2 / 10);
     dstCenter := mkPos (1 / 2) (1 / 2);
     dstZoom := 2 / 10 |}.

Definition odd_region : Region :=
  {| enable := true;
     srcCenter := mkPos (749 / 1000) (749 / 1000);
     srcSize := mkPos (21 / 100) (21 / 100);
     dstCenter := mkPos (1 / 2) (1 / 2);
     dstZoom := 2 / 10 |}.

(** The example of the specification (section 8), on a frame of 100 by 100
    pixels. *)
Definition spec_example_region : Region :=
  {| enable := true;
     srcCenter := mkPos (1 / 2) (1 / 2);
     srcSize := mkPos (2 / 10) (2 / 10);
     dstCenter := mkPos (8 / 10) (2 / 10);
     dstZoom := 3 / 10 |}.

(** A region whose source width is negative. *)
Definition negative_size_region : Region :=
  {| enable := true;
     srcCenter := mkPos (1 / 2) (1 / 2);
     srcSize := mkPos (- (1 / 10)) (2 / 10);
     dstCenter := mkPos (1 / 2) (1 / 2);
     dstZoom := 2 / 10 |}.

(** A region whose zoom parameter is negative. *)
Definition negative_zoom_region : Region :=
  {| enable := true;
     srcCenter := mkPos (1 / 2) (1 / 2);
     srcSize := mkPos (1 / 2) (1 / 2);
     dstCenter := mkPos (1 / 2) (1 / 2);
     dstZoom := - (1 / 10) |}.

(** A region whose zoom parameter is zero, the low end of its range. *)
Definition zero_zoom_region : Region :=
  {| enable := true;
     srcCenter := mkPos (1 / 2) (1 / 2);
     srcSize := mkPos (1 / 2) (1 / 2);
     dstCenter := mkPos (1 / 2) (1 / 2);
     dstZoom := 0 |}.

(** ** Example filters *)

(** A filter with the default parameters but for a fade duration of 0. *)
Definition instant_filter (w h : N) : Loupe :=
  {| width := w;
     height := h;
     showWireframe := true;
     showMagnified := true;
     outlineWidth := 3 / 100;
     pointerWidth := 6 / 100;
     pointerOutlineWidth := 3 / 100;
     fadeDuration := 0;
     endTime := 1 / 100;
     regions := repeat default_region numRegions |}.

(** A filter with the default parameters that draws neither the magnified
    regions nor the wire frames; its first region is enabled. *)
Definition plain_filter (w h : N) : Loupe :=
  {| width := w;
     height := h;
     showWireframe := false;
     showMagnified := false;
     outlineWidth := 3 / 100;
     pointerWidth := 6 / 100;
     pointerOutlineWidth := 3 / 100;
     fadeDuration := 1 / 10;
     endTime := 1 / 100;
     regions := [ spec_example_region; default_region; default_region ] |}.

(** The example of the specification and the region on the border of the
    frame, on rationals. *)
Definition spec_example_Q : RegionQ :=
  {| srcCenterQ := (1 # 2, 1 # 2)%Q;
     srcSizeQ := (2 # 10, 2 # 10)%Q;
     dstCenterQ := (8 # 10, 2 # 10)%Q;
     dstZoomQ := (3 # 10)%Q |}.

Definition border_Q : RegionQ :=
  {| srcCenterQ := (0, 0)%Q;
     srcSizeQ := (2 # 10, 2 # 10)%Q;
     dstCenterQ := (1 # 2, 1 # 2)%Q;
     dstZoomQ := (2 # 10)%Q |}.

(** ** Frame bounds (lines 231-233) *)

(** [isInFrame]: its parameters are [unsigned], so that the comparisons with
    0 are made on [unsigned] values. *)
Definition isInFrame (this : Loupe) (ux uy : N) : bool :=
  ((0 <=? ux)%N && (ux <? width this)%N
   && (0 <=? uy)%N && (uy <? height this)%N)%bool.

(** An [int] passed where an [unsigned] is expected. *)
Definition unsigned_of_int (z : Z) : N := Z.to_N (to_unsigned z).

(** ** Observations on a sequence of drawing calls *)

(** The line widths a sequence sets, in order. *)
Fixpoint line_widths (calls : list cairo_call) : list R :=
  match calls with
  | [] => []
  | cairo_set_line_width w :: rest => w :: line_widths rest
  | _ :: rest => line_widths rest
  end.

(** The scalings and translations of a sequence, in order. *)
Fixpoint transforms (calls : list cairo_call) : list cairo_call :=
  match calls with
  | [] => []
  | cairo_scale sx sy :: rest => cairo_scale sx sy :: transforms rest
  | cairo_translate tx ty :: rest => cairo_translate tx ty :: transforms rest
  | _ :: rest => transforms rest
  end.

(** The number of saved states after a sequence that starts with [d] saved
    states; [None] when the sequence restores a state that was not saved. *)
Fixpoint save_depth (d : nat) (calls : list cairo_call) : option nat :=
  match calls with
  | [] => Some d
  | cairo_save :: rest => save_depth (S d) rest
  | cairo_restore :: rest =>
      match d with
      | O => None
      | S d' => save_depth d' rest
      end
  | _ :: rest => save_depth d rest
  end.

(** The number of enabled regions among the regions the loops visit. *)
Definition enabled_regions (this : Loupe) : nat :=
  List.length (filter enable (firstn numRegions (regions this))).

(** The pairs the loops run over: every region with its entry of
    [info]. *)
Definition loop_pairs (this : Loupe) (fade : double)
  : list (Region * option Info) :=
  combine (firstn numRegions (regions this)) (compute_info this fade).

(** The default filter with its first region enabled, at full fade. *)
Definition enabled_filter : Loupe :=
  {| width := 100;
     height := 100;
     showWireframe := true;
     showMagnified := true;
     outlineWidth := 3 / 100;
     pointerWidth := 6 / 100;
     pointerOutlineWidth := 3 / 100;
     fadeDuration := 1 / 10;
     endTime := 1 / 100;
     regions := [ spec_example_region; default_region; default_region ] |}.

(** ** Parameter registration (lines 57-94) *)

Module Registration.

Import String Ascii.
Local Open Scope string_scope.

(** The overload of [register_param] that a call resolves to: the one for a
    [bool] or the one for a [double]. *)
Inductive param_type : Type :=
| PARAM_BOOL
| PARAM_DOUBLE.

(** One call of [register_param]: the type of the registered member, its
    name and its description. *)
Record param_info : Type := mkParam {
  param_kind : param_type;
  param_name : string;
  param_desc : string
}.

(** [os << i] for an [unsigned]: its decimal digits. *)
Definition decimal (i : nat) : string :=
  DecimalString.NilEmpty.string_of_uint (Nat.to_uint i).

(** Lines 57-72: the parameters of the filter as a whole. *)
Definition global_params : list param_info :=
  [ mkParam PARAM_BOOL "Wire Frame" "Show wire frame for positioning.";
    mkParam PARAM_BOOL "Show Magnified" "Show magnified region.";
    mkParam PARAM_DOUBLE "Outline Width"
      "The width of the outline drawn around the magnified region (in 100 pixels at 1080p).";
    mkParam PARAM_DOUBLE "Pointer Width"
      "The width of the pointer line (in 100 pixels at 1080p).";
    mkParam PARAM_DOUBLE "Pointer Outline Width"
      "The width of the pointer bubble outline (in 100 pixels at 1080p).";
    mkParam PARAM_DOUBLE "Fade Duration"
      "The duration of the fade in/out (in 10 seconds).";
    mkParam PARAM_DOUBLE "End Time"
      "The time after which the image should be back to normal (in 1000 seconds)." ].

(** Lines 75-93: the body of the loop, for region [i].  The members are, in
    order: [enable], [srcCenter.x], [srcCenter.y], [srcSize.x], [srcSize.y],
    [dstCenter.x], [dstCenter.y] and [dstZoom]. *)
Definition region_params (i : nat) : list param_info :=
  [ mkParam PARAM_BOOL ("Enable region " ++ decimal i)
      "Enable another magnification region.";
    mkParam PARAM_DOUBLE "Source Center X"
      "The center of the source rectangle.";
    mkParam PARAM_DOUBLE "Source Center Y"
      "The center of the source rectangle.";
    mkParam PARAM_DOUBLE "Source Size X" "The size of the source rectangle.";
    mkParam PARAM_DOUBLE "Source Size X" "The size of the source rectangle.";
    mkParam PARAM_DOUBLE "Destination Center X"
      "The center of the destination rectangle.";
    mkParam PARAM_DOUBLE "Destination Center Y"
      "The center of the destination rectangle.";
    mkParam PARAM_DOUBLE "Destination Zoom"
      "The magnification factor of the destination." ].

(** The calls of the constructor for [n] regions, in order; the filter has
    [numRegions] of them. *)
Definition registered_params (n : nat) : list param_info :=
  global_params ++ flat_map region_params (seq 0 n).

Definition registered_names (n : nat) : list string :=
  map param_name (registered_params n).

End Registration.

(** * Properties *)

(** ** Conversion to [int] *)

Lemma trunc_floor (z : Z) (u : R) :
  0 <= u -> IZR z <= u < IZR z + 1 -> trunc u = z.
Proof.
  intros H0 Hz. unfold trunc.
  destruct (Rle_dec 0 u) as [_ | Hn]; [ | contradiction ].
  now apply Zfloor_eq.
Qed.

Lemma trunc_ceil (z : Z) (u : R) :
  u < 0 -> IZR z - 1 < u <= IZR z -> trunc u = z.
Proof.
  intros H0 Hz. unfold trunc.
  destruct (Rle_dec 0 u) as [Hp | _]; [ lra | ].
  now apply Zceil_eq.
Qed.

Lemma Zceil_range (u : R) : IZR (Zceil u) - 1 < u <= IZR (Zceil u).
Proof.
  unfold Zceil. rewrite opp_IZR.
  pose proof (Zfloor_bound (- u)). lra.
Qed.

(** The conversion moves a value toward zero by less than one. *)
Lemma trunc_range (u : R) :
  (0 <= u -> u - 1 < IZR (trunc u) <= u) /\
  (u < 0 -> u <= IZR (trunc u) < u + 1).
Proof.
  unfold trunc. destruct (Rle_dec 0 u) as [Hp | Hn].
  - pose proof (Zfloor_bound u). split; intros; lra.
  - pose proof (Zceil_range u). split; intros; lra.
Qed.

Lemma trunc_within_one (u : R) : u - 1 < IZR (trunc u) < u + 1.
Proof.
  destruct (trunc_range u) as [Hp Hn].
  destruct (Rle_dec 0 u) as [H | H].
  - specialize (Hp H). lra.
  - assert (Hu : u < 0) by lra. specialize (Hn Hu). lra.
Qed.

Lemma trunc_nonneg (u : R) : -1 < u -> (0 <= trunc u)%Z.
Proof.
  intros Hu. destruct (trunc_range u) as [Hp Hn].
  apply le_IZR.
  destruct (Rle_dec 0 u) as [H | H].
  - specialize (Hp H).
    assert (Hlt : -1 < IZR (trunc u)) by lra.
    apply lt_IZR in Hlt. apply IZR_le. lia.
  - assert (H' : u < 0) by lra. specialize (Hn H').
    assert (Hlt : -1 < IZR (trunc u)) by lra.
    apply lt_IZR in Hlt. apply IZR_le. lia.
Qed.

(** Adding a half before the conversion rounds to a nearest integer as long
    as the sum is not negative. *)
Lemma trunc_half_nearest (u : R) :
  - (1 / 2) <= u -> Rabs (IZR (trunc (u + 1 / 2)) - u) <= 1 / 2.
Proof.
  intros Hu. destruct (trunc_range (u + 1 / 2)) as [Hp _].
  assert (H0 : 0 <= u + 1 / 2) by lra. specialize (Hp H0).
  apply Rabs_le. lra.
Qed.

(** On an integer, adding a half and converting gives the integer back when
    it is not negative, and the next integer when it is. *)
Lemma trunc_int_half (z : Z) :
  (0 <= z)%Z -> trunc (IZR z + 1 / 2) = z.
Proof.
  intros Hz. apply IZR_le in Hz. apply trunc_floor; lra.
Qed.

Lemma trunc_int_half_neg (z : Z) :
  (z < 0)%Z -> trunc (IZR z + 1 / 2) = (z + 1)%Z.
Proof.
  intros Hz.
  assert (H1 : (z <= -1)%Z) by lia. apply IZR_le in H1.
  apply trunc_ceil; rewrite ?plus_IZR; lra.
Qed.

(** ** [lerp] *)

Lemma lerp_0 (a b : R) : lerp 0 a b = a.
Proof.
  unfold lerp.
  destruct (Rlt_dec 1 0); [ lra | ].
  destruct (Rlt_dec 0 0); lra.
Qed.

Lemma lerp_1 (a b : R) : lerp 1 a b = b.
Proof.
  unfold lerp.
  destruct (Rlt_dec 1 1); [ lra | ].
  destruct (Rlt_dec 1 0); lra.
Qed.

Lemma lerp_unit (f a b : R) :
  0 <= f <= 1 -> lerp f a b = (1 - f) * a + f * b.
Proof.
  intros Hf. unfold lerp.
  destruct (Rlt_dec 1 f); [ lra | ].
  destruct (Rlt_dec f 0); [ lra | reflexivity ].
Qed.

(** The clamped factor of [lerp]. *)
Lemma lerp_clamped (f a b : R) :
  exists g, 0 <= g <= 1 /\ lerp f a b = (1 - g) * a + g * b.
Proof.
  unfold lerp.
  destruct (Rlt_dec 1 f) as [H1 | H1].
  - destruct (Rlt_dec 1 0); [ lra | ]. exists 1. lra.
  - destruct (Rlt_dec f 0) as [H0 | H0].
    + exists 0. lra.
    + exists f. lra.
Qed.

Lemma dim_nonneg (n : N) : 0 <= dim n.
Proof. unfold dim. apply IZR_le. lia. Qed.

(** ** The source rectangle *)

Lemma region_info_source (r : Region) (fade : R) (W H : N) :
  code_source_rect r W H (region_info r fade W H).
Proof.
  unfold code_source_rect, region_info, idiv.
  cbn [srcWidth srcHeight srcX0 srcY0].
  repeat split; reflexivity.
Qed.

(** The source rectangle does not depend on the fade. *)
Lemma region_info_source_fade (r : Region) (f g : R) (W H : N) :
  srcWidth (region_info r f W H) = srcWidth (region_info r g W H) /\
  srcHeight (region_info r f W H) = srcHeight (region_info r g W H) /\
  srcX0 (region_info r f W H) = srcX0 (region_info r g W H) /\
  srcY0 (region_info r f W H) = srcY0 (region_info r g W H).
Proof. repeat split; reflexivity. Qed.

Lemma quot_even_half (z : Z) :
  Z.even z = true -> IZR (Z.quot z 2) = IZR z / 2.
Proof.
  intros He. apply Z.even_spec in He. destruct He as [k ->].
  replace (2 * k)%Z with (k * 2)%Z by lia.
  rewrite Z.quot_mul by lia. rewrite mult_IZR. lra.
Qed.

Lemma nearest_trunc_half (u : R) :
  - (1 / 2) <= u -> nearest (trunc (u + 1 / 2)) u.
Proof.
  intros Hu. unfold nearest. now apply trunc_half_nearest.
Qed.

Lemma dim_100 : dim 100 = 100.
Proof. reflexivity. Qed.

(** The source rectangle from the values of its four conversions. *)
Lemma source_rect_values (r : Region) (fade : R) (W H : N) (w h x0 y0 : Z) :
  trunc (x (srcSize r) * dim H + 1 / 2) = w ->
  trunc (y (srcSize r) * dim H + 1 / 2) = h ->
  trunc ((x (srcCenter r) * 2 - 1 / 2) * dim W
         - IZR (Z.quot w 2) + 1 / 2) = x0 ->
  trunc ((y (srcCenter r) * 2 - 1 / 2) * dim H
         - IZR (Z.quot h 2) + 1 / 2) = y0 ->
  let i := region_info r fade W H in
  srcWidth i = w /\ srcHeight i = h /\ srcX0 i = x0 /\ srcY0 i = y0.
Proof.
  intros Hw Hh Hx Hy.
  destruct (region_info_source r fade W H) as (Ew & Eh & Ex & Ey).
  cbv zeta. rewrite Ew, Hw in Ex. rewrite Eh, Hh in Ey.
  rewrite Ew, Eh, Ex, Ey. repeat split; assumption.
Qed.

(** Evaluation of a conversion on a frame of 100 by 100 pixels: the [int]
    quotients are computed and the bounds of the result are left to [lra]. *)
Ltac eval_quot :=
  repeat match goal with
  | |- context [Z.quot (Zpos ?a) (Zpos ?b)] =>
      let v := eval vm_compute in (Z.quot (Zpos a) (Zpos b)) in
      change (Z.quot (Zpos a) (Zpos b)) with v
  | |- context [Z.quot Z0 (Zpos ?b)] =>
      change (Z.quot Z0 (Zpos b)) with Z0
  | |- context [Z.quot (Zneg ?a) (Zpos ?b)] =>
      let v := eval vm_compute in (Z.quot (Zneg a) (Zpos b)) in
      change (Z.quot (Zneg a) (Zpos b)) with v
  end.

Ltac eval_trunc :=
  cbn [x y srcSize srcCenter dstCenter dstZoom];
  rewrite ?dim_100; eval_quot;
  first [ apply trunc_floor; lra | apply trunc_ceil; lra ].

Lemma border_region_source (fade : R) :
  let i := region_info border_region fade 100 100 in
  srcWidth i = 20%Z /\ srcHeight i = 20%Z /\
  srcX0 i = (-59)%Z /\ srcY0 i = (-59)%Z.
Proof. apply source_rect_values; unfold border_region; eval_trunc. Qed.

Lemma odd_region_source (fade : R) :
  let i := region_info odd_region fade 100 100 in
  srcWidth i = 21%Z /\ srcHeight i = 21%Z /\
  srcX0 i = 90%Z /\ srcY0 i = 90%Z.
Proof. apply source_rect_values; unfold odd_region; eval_trunc. Qed.

Lemma default_region_source (fade : R) :
  let i := region_info default_region fade 100 100 in
  srcWidth i = 50%Z /\ srcHeight i = 50%Z /\
  srcX0 i = 25%Z /\ srcY0 i = 25%Z.
Proof. apply source_rect_values; unfold default_region; eval_trunc. Qed.

Lemma int_half_exact (r : Region) (W H : N) (i : Info) :
  Z.even (srcWidth i) = true -> Z.even (srcHeight i) = true ->
  int_half_source_rect r W H i -> spec_source_rect r W H i.
Proof.
  intros Hew Heh (Hw & Hh & Hx & Hy).
  unfold spec_source_rect.
  rewrite <- (quot_even_half _ Hew), <- (quot_even_half _ Heh).
  repeat split; assumption.
Qed.

(** C1, as amended: for a source size that is not negative and coordinates
    that do not round below zero, the fields of the source rectangle are
    the nearest integers to the expressions of the specification with the
    halves taken as [int] quotients; they are the roundings of the
    specification itself when the width and the height are even. *)
Theorem C1_source_rect_rounding (r : Region) (fade : R) (W H : N) :
  let i := region_info r fade W H in
  0 <= x (srcSize r) -> 0 <= y (srcSize r) ->
  - (1 / 2) <=
    (x (srcCenter r) * 2 - 1 / 2) * dim W - IZR (Z.quot (srcWidth i) 2) ->
  - (1 / 2) <=
    (y (srcCenter r) * 2 - 1 / 2) * dim H - IZR (Z.quot (srcHeight i) 2) ->
  int_half_source_rect r W H i /\
  (Z.even (srcWidth i) = true -> Z.even (srcHeight i) = true ->
   spec_source_rect r W H i).
Proof.
  intros i Hsx Hsy Hpx Hpy.
  pose proof (region_info_source r fade W H) as Hc. fold i in Hc.
  destruct Hc as (Hw & Hh & Hx & Hy).
  pose proof (dim_nonneg H) as HH.
  assert (Hi : int_half_source_rect r W H i).
  { unfold int_half_source_rect. repeat split.
    - rewrite Hw. apply nearest_trunc_half. nra.
    - rewrite Hh. apply nearest_trunc_half. nra.
    - rewrite Hx. now apply nearest_trunc_half.
    - rewrite Hy. now apply nearest_trunc_half. }
  split; [ exact Hi | ].
  intros Hew Heh. now apply int_half_exact.
Qed.

(** The default region on a frame of 100 by 100 pixels. *)
Lemma C1_source_rect_rounding_witness :
  int_half_source_rect default_region 100 100
    (region_info default_region 0 100 100) /\
  spec_source_rect default_region 100 100
    (region_info default_region 0 100 100).
Proof.
  destruct (default_region_source 0) as (Ew & Eh & _ & _).
  assert (Hx : - (1 / 2) <=
    (x (srcCenter default_region) * 2 - 1 / 2) * dim 100
    - IZR (Z.quot (srcWidth (region_info default_region 0 100 100)) 2)).
  { rewrite Ew. change (Z.quot 50 2) with 25%Z.
    cbn [x srcCenter default_region]. rewrite dim_100. lra. }
  assert (Hy : - (1 / 2) <=
    (y (srcCenter default_region) * 2 - 1 / 2) * dim 100
    - IZR (Z.quot (srcHeight (region_info default_region 0 100 100)) 2)).
  { rewrite Eh. change (Z.quot 50 2) with 25%Z.
    cbn [y srcCenter default_region]. rewrite dim_100. lra. }
  assert (Hsx : 0 <= x (srcSize default_region))
    by (cbn [x srcSize default_region]; lra).
  assert (Hsy : 0 <= y (srcSize default_region))
    by (cbn [y srcSize default_region]; lra).
  destruct (C1_source_rect_rounding default_region 0 100 100 Hsx Hsy Hx Hy)
    as [Hi Hs].
  split; [ exact Hi | ].
  apply Hs.
  - rewrite Ew. reflexivity.
  - rewrite Eh. reflexivity.
Defined.

(** C1 fails as stated.  A region centred on the corner of a frame of 100
    by 100 pixels: the code yields [srcX0 = -59], where the formula of the
    specification has [round (-60) = -60]. *)
Lemma C1_negative_coordinate :
  ~ spec_source_rect border_region 100 100
      (region_info border_region 0 100 100).
Proof.
  destruct (border_region_source 0) as (Ew & _ & Ex & _).
  unfold spec_source_rect, nearest. intros (_ & _ & Hx & _).
  rewrite Ex, Ew in Hx. cbn [x srcCenter border_region] in Hx.
  rewrite dim_100 in Hx.
  replace (IZR (-59) - ((0 * 2 - 1 / 2) * 100 - 20 / 2)) with 1 in Hx by lra.
  rewrite Rabs_R1 in Hx. lra.
Qed.

(** A region of odd size: the code halves 21 to 10 and yields [srcX0 = 90],
    where the formula of the specification has [round (89.3) = 89]. *)
Lemma odd_size_not_nearest :
  ~ spec_source_rect odd_region 100 100 (region_info odd_region 0 100 100).
Proof.
  destruct (odd_region_source 0) as (Ew & _ & Ex & _).
  unfold spec_source_rect, nearest. intros (_ & _ & Hx & _).
  rewrite Ex, Ew in Hx. cbn [x srcCenter odd_region] in Hx.
  rewrite dim_100 in Hx.
  replace (IZR 90 - ((749 / 1000 * 2 - 1 / 2) * 100 - 21 / 2))
    with (7 / 10) in Hx by lra.
  rewrite Rabs_pos_eq in Hx; lra.
Qed.

(** ** The destination rectangle *)

Lemma region_info_dest (r : Region) (fade : R) (W H : N) :
  code_dest_rect r fade W H (region_info r fade W H).
Proof. repeat split; reflexivity. Qed.

(** The [int] half of a size is within half a pixel of the exact half. *)
Lemma quot_half_bound (w : Z) :
  - (1 / 2) <= IZR w / 2 - IZR (Z.quot w 2) <= 1 / 2.
Proof.
  pose proof (Z.quot_rem' w 2) as Hq.
  assert (Hr : (-1 <= Z.rem w 2 <= 1)%Z).
  { assert (H2 : 2%Z <> 0%Z) by lia.
    pose proof (Z.rem_bound_abs w 2 H2). lia. }
  assert (Hw : IZR w = 2 * IZR (Z.quot w 2) + IZR (Z.rem w 2)).
  { rewrite Hq at 1. rewrite plus_IZR, mult_IZR. reflexivity. }
  destruct Hr as [Hr1 Hr2]. apply IZR_le in Hr1, Hr2. lra.
Qed.

(** The centre of a rectangle whose origin is computed as on lines 140-149
    from the real centre [a]. *)
Lemma center_within_rounding (a : R) (w : Z) :
  within_rounding
    (rect_center (trunc (a - IZR (Z.quot w 2) + 1 / 2)) w) a.
Proof.
  unfold within_rounding, rect_center.
  pose proof (trunc_within_one (a - IZR (Z.quot w 2) + 1 / 2)).
  pose proof (quot_half_bound w).
  apply Rabs_def1; lra.
Qed.

(** C2, as amended: at fade 1 the zoom is ten times the zoom parameter, and
    the centre of the destination rectangle is, within rounding,
    ((2 dstCenter.x - 0.5) frameWidth, (2 dstCenter.y - 0.5) frameHeight). *)
Theorem C2_full_fade (r : Region) (W H : N) :
  code_full_fade r W H (region_info r 1 W H).
Proof.
  destruct (region_info_dest r 1 W H) as (Hz & _ & _ & Hx & Hy).
  unfold code_full_fade. rewrite Hx, Hy, Hz, !lerp_1.
  repeat split; apply center_within_rounding.
Qed.

Lemma spec_example_source (fade : R) :
  let i := region_info spec_example_region fade 100 100 in
  srcWidth i = 20%Z /\ srcHeight i = 20%Z /\
  srcX0 i = 40%Z /\ srcY0 i = 40%Z.
Proof. apply source_rect_values; unfold spec_example_region; eval_trunc. Qed.

(** The destination rectangle from the source size, the zoom and the values
    of its four conversions. *)
Lemma dest_rect_values (r : Region) (fade : R) (W H : N)
    (w h : Z) (z : R) (dw dh x0 y0 : Z) :
  srcWidth (region_info r fade W H) = w ->
  srcHeight (region_info r fade W H) = h ->
  lerp fade 1 (dstZoom r * 10) = z ->
  trunc (IZR w * z + 1 / 2) = dw ->
  trunc (IZR h * z + 1 / 2) = dh ->
  trunc ((lerp fade (x (srcCenter r)) (x (dstCenter r)) * 2 - 1 / 2) * dim W
         - IZR (Z.quot dw 2) + 1 / 2) = x0 ->
  trunc ((lerp fade (y (srcCenter r)) (y (dstCenter r)) * 2 - 1 / 2) * dim H
         - IZR (Z.quot dh 2) + 1 / 2) = y0 ->
  let i := region_info r fade W H in
  realZoom i = z /\ dstWidth i = dw /\ dstHeight i = dh /\
  dstX0 i = x0 /\ dstY0 i = y0.
Proof.
  intros Hw Hh Hz Hdw Hdh Hx Hy.
  destruct (region_info_dest r fade W H) as (Ez & Ew & Eh & Ex & Ey).
  cbv zeta. rewrite Hz in Ez. rewrite Hw, Ez, Hdw in Ew.
  rewrite Hh, Ez, Hdh in Eh. rewrite Ew, Hx in Ex. rewrite Eh, Hy in Ey.
  repeat split; assumption.
Qed.

Ltac eval_dest :=
  rewrite ?lerp_0, ?lerp_1;
  first [ eval_trunc
        | cbn [x y srcSize srcCenter dstCenter dstZoom]; lra ].

Lemma spec_example_full_fade :
  let i := region_info spec_example_region 1 100 100 in
  realZoom i = 3 /\ dstWidth i = 60%Z /\ dstHeight i = 60%Z /\
  dstX0 i = 80%Z /\ dstY0 i = (-39)%Z.
Proof.
  destruct (spec_example_source 1) as (Ew & Eh & _).
  apply (dest_rect_values _ _ _ _ 20 20); try assumption;
    unfold spec_example_region; eval_dest.
Qed.

(** C2 fails as stated.  In the example of the specification the
    destination rectangle is 60 pixels wide from [dstX0 = 80]: its centre is
    at 110, thirty pixels from [dstCenter.x * frameWidth = 80]. *)
Lemma C2_spec_example_center :
  ~ spec_full_fade spec_example_region 100 100
      (region_info spec_example_region 1 100 100).
Proof.
  destruct spec_example_full_fade as (_ & Edw & _ & Ex & _).
  unfold spec_full_fade, within_rounding, rect_center.
  intros (_ & Hx & _). rewrite Ex, Edw in Hx.
  cbn [x dstCenter spec_example_region] in Hx. rewrite dim_100 in Hx.
  replace (IZR 80 + IZR 60 / 2 - 8 / 10 * 100) with 30 in Hx by lra.
  rewrite Rabs_pos_eq in Hx; lra.
Qed.

(** The conversion to [int] keeps the order. *)
Lemma trunc_monotone (u v : R) : u <= v -> (trunc u <= trunc v)%Z.
Proof.
  intros Huv. unfold trunc.
  destruct (Rle_dec 0 u) as [Hu | Hu]; destruct (Rle_dec 0 v) as [Hv | Hv].
  - now apply Zfloor_le.
  - lra.
  - assert (Hc : (Zceil u <= 0)%Z).
    { pose proof (Zceil_range u) as [Hc _].
      assert (Hlt : IZR (Zceil u) < 1) by lra.
      apply lt_IZR in Hlt. lia. }
    assert (Hf : (0 <= Zfloor v)%Z).
    { apply (Zfloor_lub 0 v). exact Hv. }
    lia.
  - now apply Zceil_le.
Qed.

Lemma lerp_range (f a b : R) : Rmin a b <= lerp f a b <= Rmax a b.
Proof.
  destruct (lerp_clamped f a b) as (g & Hg & ->).
  pose proof (Rmin_l a b). pose proof (Rmin_r a b).
  pose proof (Rmax_l a b). pose proof (Rmax_r a b).
  split; nra.
Qed.

Lemma srcWidth_nonneg (r : Region) (fade : R) (W H : N) :
  0 <= x (srcSize r) -> (0 <= srcWidth (region_info r fade W H))%Z.
Proof.
  intros Hs. destruct (region_info_source r fade W H) as (Hw & _).
  rewrite Hw. apply trunc_nonneg. pose proof (dim_nonneg H). nra.
Qed.

Lemma srcHeight_nonneg (r : Region) (fade : R) (W H : N) :
  0 <= y (srcSize r) -> (0 <= srcHeight (region_info r fade W H))%Z.
Proof.
  intros Hs. destruct (region_info_source r fade W H) as (_ & Hh & _).
  rewrite Hh. apply trunc_nonneg. pose proof (dim_nonneg H). nra.
Qed.

Lemma srcWidth_le_height (r : Region) (fade : R) (W H : N) :
  x (srcSize r) <= 1 -> (srcWidth (region_info r fade W H) <= Z.of_N H)%Z.
Proof.
  intros Hs. destruct (region_info_source r fade W H) as (Hw & _).
  rewrite Hw.
  assert (E : trunc (dim H + 1 / 2) = Z.of_N H)
    by (apply trunc_int_half; lia).
  rewrite <- E. apply trunc_monotone. pose proof (dim_nonneg H). nra.
Qed.

Lemma srcHeight_le_height (r : Region) (fade : R) (W H : N) :
  y (srcSize r) <= 1 -> (srcHeight (region_info r fade W H) <= Z.of_N H)%Z.
Proof.
  intros Hs. destruct (region_info_source r fade W H) as (_ & Hh & _).
  rewrite Hh.
  assert (E : trunc (dim H + 1 / 2) = Z.of_N H)
    by (apply trunc_int_half; lia).
  rewrite <- E. apply trunc_monotone. pose proof (dim_nonneg H). nra.
Qed.

(** C3: at fade 0 the destination rectangle is the source rectangle and the
    zoom is 1, for every region and every configuration of the documented
    range, a source size in [0,1]; the sizes are then between 0 and the
    frame height, so that their conversions to [int] are defined. *)
Theorem C3_no_fade (r : Region) (W H : N) :
  0 <= x (srcSize r) <= 1 -> 0 <= y (srcSize r) <= 1 ->
  let i := region_info r 0 W H in
  dest_equals_source i /\
  (0 <= srcWidth i <= Z.of_N H)%Z /\ (0 <= srcHeight i <= Z.of_N H)%Z.
Proof.
  intros [Hsx Hsx1] [Hsy Hsy1] i.
  pose proof (srcWidth_nonneg r 0 W H Hsx) as Hw0.
  pose proof (srcHeight_nonneg r 0 W H Hsy) as Hh0.
  pose proof (srcWidth_le_height r 0 W H Hsx1) as Hw1.
  pose proof (srcHeight_le_height r 0 W H Hsy1) as Hh1.
  destruct (region_info_source r 0 W H) as (_ & _ & Hx & Hy).
  destruct (region_info_dest r 0 W H) as (Hz & Hdw & Hdh & Hdx & Hdy).
  fold i in Hw0, Hh0, Hw1, Hh1, Hx, Hy, Hz, Hdw, Hdh, Hdx, Hdy.
  rewrite lerp_0 in Hz.
  assert (Ew : dstWidth i = srcWidth i).
  { rewrite Hdw, Hz, Rmult_1_r. now apply trunc_int_half. }
  assert (Eh : dstHeight i = srcHeight i).
  { rewrite Hdh, Hz, Rmult_1_r. now apply trunc_int_half. }
  split; [ | split; split; assumption ].
  unfold dest_equals_source. repeat split; try assumption.
  - rewrite Hdx, Hx, lerp_0, Ew. reflexivity.
  - rewrite Hdy, Hy, lerp_0, Eh. reflexivity.
Qed.

(** The default region on a frame of 100 by 100 pixels. *)
Lemma C3_no_fade_witness :
  let i := region_info default_region 0 100 100 in
  dest_equals_source i /\
  (0 <= srcWidth i <= 100)%Z /\ (0 <= srcHeight i <= 100)%Z.
Proof.
  apply (C3_no_fade default_region 100 100).
  - cbn [x srcSize default_region]. lra.
  - cbn [y srcSize default_region]. lra.
Defined.

(** A negative source width grows by one pixel at fade 0: the second
    conversion moves it toward zero again. *)
Lemma no_fade_negative_width (r : Region) (W H : N) :
  let i := region_info r 0 W H in
  (srcWidth i < 0)%Z -> dstWidth i = (srcWidth i + 1)%Z.
Proof.
  intros i Hn.
  destruct (region_info_dest r 0 W H) as (Hz & Hdw & _). fold i in Hz, Hdw.
  rewrite lerp_0 in Hz. rewrite Hdw, Hz, Rmult_1_r.
  now apply trunc_int_half_neg.
Qed.

Lemma negative_size_source (fade : R) :
  let i := region_info negative_size_region fade 100 100 in
  srcWidth i = (-9)%Z /\ srcHeight i = 20%Z /\
  srcX0 i = 54%Z /\ srcY0 i = 40%Z.
Proof.
  apply source_rect_values; unfold negative_size_region; eval_trunc.
Qed.

Lemma negative_size_no_fade :
  let i := region_info negative_size_region 0 100 100 in
  realZoom i = 1 /\ dstWidth i = (-8)%Z /\ dstHeight i = 20%Z /\
  dstX0 i = 54%Z /\ dstY0 i = 40%Z.
Proof.
  destruct (negative_size_source 0) as (Ew & Eh & _).
  apply (dest_rect_values _ _ _ _ (-9) 20); try assumption;
    unfold negative_size_region; eval_dest.
Qed.

(** Outside the documented range: a source width of -0.1 on a frame of
    100 by 100 pixels resolves to [srcWidth = -9] and, at fade 0, to
    [dstWidth = -8]. *)
Lemma negative_size_not_equal :
  ~ dest_equals_source (region_info negative_size_region 0 100 100).
Proof.
  destruct (negative_size_source 0) as (Ew & _).
  destruct negative_size_no_fade as (_ & Edw & _).
  unfold dest_equals_source. intros (_ & _ & E & _).
  rewrite Ew, Edw in E. discriminate E.
Qed.

(** ** Signs *)

Lemma realZoom_nonneg (r : Region) (fade : R) (W H : N) :
  0 <= dstZoom r -> 0 <= realZoom (region_info r fade W H).
Proof.
  intros Hz. destruct (region_info_dest r fade W H) as (E & _).
  rewrite E. destruct (lerp_clamped fade 1 (dstZoom r * 10)) as (g & Hg & ->).
  nra.
Qed.

Lemma realZoom_le_10 (r : Region) (fade : R) (W H : N) :
  dstZoom r <= 1 -> realZoom (region_info r fade W H) <= 10.
Proof.
  intros Hz. destruct (region_info_dest r fade W H) as (E & _).
  rewrite E. destruct (lerp_range fade 1 (dstZoom r * 10)) as [_ Hhi].
  eapply Rle_trans; [ exact Hhi | ]. apply Rmax_lub; lra.
Qed.

(** A size of at most [h] scaled by a zoom of at most 10. *)
Lemma scaled_size_le (w h : Z) (z : R) :
  (0 <= w <= h)%Z -> 0 <= z <= 10 ->
  (trunc (IZR w * z + 1 / 2) <= 10 * h)%Z.
Proof.
  intros [Hw0 Hwh] Hz.
  assert (H10 : (0 <= 10 * h)%Z) by lia.
  rewrite <- (trunc_int_half (10 * h)%Z H10).
  apply trunc_monotone. rewrite mult_IZR.
  apply IZR_le in Hw0, Hwh. nra.
Qed.

(** C6: for every region, every fade in [0,1] and every configuration of
    the documented range with a source size that is not negative (source
    size and zoom parameter in [0,1]), no width or height of the resolved
    rectangles is negative, nor is the zoom; the sizes are at most ten times
    the frame height, so that their conversions to [int] are defined. *)
Theorem C6_sizes_nonneg (r : Region) (fade : R) (W H : N) :
  0 <= fade <= 1 ->
  0 <= x (srcSize r) <= 1 -> 0 <= y (srcSize r) <= 1 ->
  0 <= dstZoom r <= 1 ->
  let i := region_info r fade W H in
  sizes_nonneg i /\ sizes_fit H i /\ realZoom i <= 10.
Proof.
  intros Hf [Hsx Hsx1] [Hsy Hsy1] [Hz Hz1] i.
  pose proof (srcWidth_nonneg r fade W H Hsx) as Hw0.
  pose proof (srcHeight_nonneg r fade W H Hsy) as Hh0.
  pose proof (srcWidth_le_height r fade W H Hsx1) as Hw1.
  pose proof (srcHeight_le_height r fade W H Hsy1) as Hh1.
  pose proof (realZoom_nonneg r fade W H Hz) as Hz0.
  pose proof (realZoom_le_10 r fade W H Hz1) as Hz10.
  destruct (region_info_dest r fade W H) as (_ & Hdw & Hdh & _).
  fold i in Hw0, Hh0, Hw1, Hh1, Hz0, Hz10, Hdw, Hdh.
  split; [ | split; [ | exact Hz10 ] ].
  - unfold sizes_nonneg. repeat split; try assumption.
    + rewrite Hdw. apply trunc_nonneg. apply IZR_le in Hw0. nra.
    + rewrite Hdh. apply trunc_nonneg. apply IZR_le in Hh0. nra.
  - unfold sizes_fit. repeat split; try assumption.
    + rewrite Hdw. apply scaled_size_le; [ lia | lra ].
    + rewrite Hdh. apply scaled_size_le; [ lia | lra ].
Qed.

(** The default region half way through the fade. *)
Lemma C6_sizes_nonneg_witness :
  let i := region_info default_region (1 / 2) 100 100 in
  sizes_nonneg i /\ sizes_fit 100 i /\ realZoom i <= 10.
Proof.
  apply (C6_sizes_nonneg default_region (1 / 2) 100 100).
  - lra.
  - cbn [x srcSize default_region]. lra.
  - cbn [y srcSize default_region]. lra.
  - cbn [dstZoom default_region]. lra.
Defined.

(** Outside the documented range: with a zoom parameter of -0.1 and a
    source size that is not negative, the zoom at fade 1 is -1. *)
Lemma negative_zoom_not_nonneg :
  ~ sizes_nonneg (region_info negative_zoom_region 1 100 100).
Proof.
  destruct (region_info_dest negative_zoom_region 1 100 100) as (Hz & _).
  rewrite lerp_1 in Hz. cbn [dstZoom negative_zoom_region] in Hz.
  unfold sizes_nonneg. intros (_ & _ & _ & _ & H0).
  rewrite Hz in H0. lra.
Qed.

(** ** The divisor of the paint transform *)

(** C10, as amended: for a zoom parameter and a fade in the unit interval
    the zoom is zero exactly when the fade is 1 and the zoom parameter is 0;
    in every other case it is positive and both quotients of line 185 are
    finite. *)
Theorem C10_paint_divisor (r : Region) (fade : R) (W H : N) :
  0 <= dstZoom r <= 1 -> 0 <= fade <= 1 ->
  let i := region_info r fade W H in
  (realZoom i = 0 <-> fade = 1 /\ dstZoom r = 0) /\
  (realZoom i <> 0 ->
   0 < realZoom i /\
   ddiv (IZR (dstX0 i)) (realZoom i) = Fin (IZR (dstX0 i) / realZoom i) /\
   ddiv (IZR (dstY0 i)) (realZoom i) = Fin (IZR (dstY0 i) / realZoom i)).
Proof.
  intros Hz Hf i.
  destruct (region_info_dest r fade W H) as (E & _). fold i in E.
  rewrite (lerp_unit fade 1 (dstZoom r * 10) Hf) in E.
  split.
  - rewrite E. split.
    + intros H0. split; nra.
    + intros [-> ->]. lra.
  - intros Hne. split; [ | split ].
    + assert (0 <= realZoom i) by (rewrite E; nra). lra.
    + unfold ddiv. destruct (Req_dec_T (realZoom i) 0); [ contradiction | ].
      reflexivity.
    + unfold ddiv. destruct (Req_dec_T (realZoom i) 0); [ contradiction | ].
      reflexivity.
Qed.

(** The default region at full fade: the zoom is 2. *)
Lemma C10_paint_divisor_witness :
  let i := region_info default_region 1 100 100 in
  (realZoom i = 0 <-> 1 = 1 /\ dstZoom default_region = 0) /\
  (realZoom i <> 0 ->
   0 < realZoom i /\
   ddiv (IZR (dstX0 i)) (realZoom i) = Fin (IZR (dstX0 i) / realZoom i) /\
   ddiv (IZR (dstY0 i)) (realZoom i) = Fin (IZR (dstY0 i) / realZoom i)).
Proof.
  apply (C10_paint_divisor default_region 1 100 100).
  - cbn [dstZoom default_region]. lra.
  - lra.
Defined.

Lemma zero_zoom_source (fade : R) :
  let i := region_info zero_zoom_region fade 100 100 in
  srcWidth i = 50%Z /\ srcHeight i = 50%Z /\
  srcX0 i = 25%Z /\ srcY0 i = 25%Z.
Proof. apply source_rect_values; unfold zero_zoom_region; eval_trunc. Qed.

Lemma zero_zoom_full_fade :
  let i := region_info zero_zoom_region 1 100 100 in
  realZoom i = 0 /\ dstWidth i = 0%Z /\ dstHeight i = 0%Z /\
  dstX0 i = 50%Z /\ dstY0 i = 50%Z.
Proof.
  destruct (zero_zoom_source 1) as (Ew & Eh & _).
  apply (dest_rect_values _ _ _ _ 50 50); try assumption;
    unfold zero_zoom_region; eval_dest.
Qed.

(** At that zoom the translation of line 185 divides 50 by zero. *)
Lemma zero_zoom_translate :
  let i := region_info zero_zoom_region 1 100 100 in
  ddiv (IZR (dstX0 i)) (realZoom i) = PInf /\
  ddiv (IZR (dstY0 i)) (realZoom i) = PInf.
Proof.
  destruct zero_zoom_full_fade as (Ez & _ & _ & Ex & Ey).
  cbv zeta. rewrite Ez, Ex, Ey. unfold ddiv.
  destruct (Req_dec_T 0 0) as [_ | Hne]; [ | contradiction ].
  destruct (Rlt_dec 0 50); [ | lra ]. split; reflexivity.
Qed.

(** C10 fails as stated.  A zoom parameter of 0 is in the unit interval and
    so is the fade 1, and the zoom they resolve to is 0: the quotients of
    line 185 are not finite numbers. *)
Lemma C10_zero_zoom :
  ~ paint_divisor_nonzero zero_zoom_region 1 100 100.
Proof.
  destruct zero_zoom_full_fade as (Ez & _).
  unfold paint_divisor_nonzero. intros Hc. apply Hc.
  - cbn [dstZoom zero_zoom_region]. lra.
  - lra.
  - exact Ez.
Qed.

(** ** The easing curve *)

Lemma ease_in_out_sine_eq (t : R) :
  ease_in_out_sine t = (1 - cos (PI * t)) / 2.
Proof. unfold ease_in_out_sine. lra. Qed.

Lemma ease_in_out_sine_unit (t : R) : 0 <= ease_in_out_sine t <= 1.
Proof.
  rewrite ease_in_out_sine_eq. pose proof (COS_bound (PI * t)). lra.
Qed.

Lemma ease_in_out_sine_0 : ease_in_out_sine 0 = 0.
Proof.
  rewrite ease_in_out_sine_eq, Rmult_0_r, cos_0. lra.
Qed.

Lemma ease_in_out_sine_1 : ease_in_out_sine 1 = 1.
Proof.
  rewrite ease_in_out_sine_eq, Rmult_1_r, cos_PI. lra.
Qed.

Lemma ease_in_out_sine_half : ease_in_out_sine (1 / 2) = 1 / 2.
Proof.
  rewrite ease_in_out_sine_eq.
  replace (PI * (1 / 2)) with (PI / 2) by lra.
  rewrite cos_PI2. lra.
Qed.

Lemma cos_PI_minus (a : R) : cos (PI - a) = - cos a.
Proof.
  replace (PI - a) with (- a + PI) by lra.
  rewrite neg_cos, cos_neg. reflexivity.
Qed.

Lemma ease_in_out_sine_monotone (s t : R) :
  0 <= s -> s <= t -> t <= 1 -> ease_in_out_sine s <= ease_in_out_sine t.
Proof.
  intros H0 Hst H1. rewrite !ease_in_out_sine_eq.
  pose proof PI_RGT_0 as Hpi.
  assert (Hc : cos (PI * t) <= cos (PI * s)).
  { apply cos_decr_1; nra. }
  lra.
Qed.

Lemma ease_in_out_sine_symmetric (t : R) :
  ease_in_out_sine t + ease_in_out_sine (1 - t) = 1.
Proof.
  rewrite !ease_in_out_sine_eq.
  replace (PI * (1 - t)) with (PI - PI * t) by lra.
  rewrite cos_PI_minus. lra.
Qed.

(** C7: the easing function of the filter is (1 - cos (pi t)) / 2, it does
    not decrease on [0,1], and eased(t) + eased(1 - t) = 1 for every t. *)
Theorem C7_easing :
  (forall t, ease_in_out_sine t = (1 - cos (PI * t)) / 2) /\
  (forall s t, 0 <= s -> s <= t -> t <= 1 ->
               ease_in_out_sine s <= ease_in_out_sine t) /\
  (forall t, ease_in_out_sine t + ease_in_out_sine (1 - t) = 1).
Proof.
  split; [ exact ease_in_out_sine_eq | ].
  split; [ exact ease_in_out_sine_monotone | ].
  exact ease_in_out_sine_symmetric.
Qed.

(** The curve between a quarter and three quarters of the fade. *)
Lemma C7_easing_witness :
  ease_in_out_sine (1 / 4) <= ease_in_out_sine (3 / 4) /\
  ease_in_out_sine (1 / 4) + ease_in_out_sine (1 - 1 / 4) = 1.
Proof.
  destruct C7_easing as (_ & Hmono & Hsym).
  split.
  - apply (Hmono (1 / 4) (3 / 4)); lra.
  - apply (Hsym (1 / 4)).
Defined.

(** ** The fade factor *)

(** The comparisons of lines 102-105 on a finite quotient. *)
Lemma clamp_finite (q : R) :
  exists c,
    (if dlt (if dgt (Fin q) 1 then Fin 1 else Fin q) 0
     then Fin 0 else (if dgt (Fin q) 1 then Fin 1 else Fin q)) = Fin c /\
    0 <= c <= 1 /\ (1 <= q -> c = 1) /\ (0 <= q <= 1 -> c = q).
Proof.
  unfold dgt. destruct (Rlt_dec 1 q) as [H1 | H1].
  - unfold dlt. destruct (Rlt_dec 1 0); [ lra | ].
    exists 1. repeat split; lra.
  - unfold dlt. destruct (Rlt_dec q 0) as [H0 | H0].
    + exists 0. repeat split; lra.
    + exists q. repeat split; lra.
Qed.

(** With a fade duration other than zero the fade is in the unit
    interval. *)
Lemma computeFade_unit (time endTime fadeDuration : R) :
  fadeDuration <> 0 -> unit_fade (computeFade time endTime fadeDuration).
Proof.
  intros Hd. unfold computeFade, ddiv.
  destruct (Req_dec_T fadeDuration 0) as [E | _]; [ contradiction | ].
  destruct (clamp_finite (Rmin time (endTime - time) / fadeDuration))
    as (c & -> & Hc & _).
  exists (ease_in_out_sine c). split; [ reflexivity | ].
  apply ease_in_out_sine_unit.
Qed.

(** The fade is a number of the unit interval, or it is NaN; it is NaN
    exactly when zero is divided by a fade duration of zero. *)
Lemma computeFade_cases (time endTime fadeDuration : R) :
  (unit_fade (computeFade time endTime fadeDuration) /\
   ~ (fadeDuration = 0 /\ Rmin time (endTime - time) = 0)) \/
  (computeFade time endTime fadeDuration = NaN /\
   fadeDuration = 0 /\ Rmin time (endTime - time) = 0).
Proof.
  destruct (Req_dec_T fadeDuration 0) as [E | Hne].
  - unfold computeFade, ddiv.
    destruct (Req_dec_T fadeDuration 0) as [_ | Hne]; [ | contradiction ].
    destruct (Rlt_dec 0 (Rmin time (endTime - time))) as [Hp | Hp].
    + left. split; [ | lra ]. cbn [dgt]. unfold dlt.
      destruct (Rlt_dec 1 0); [ lra | ].
      exists (ease_in_out_sine 1).
      split; [ reflexivity | apply ease_in_out_sine_unit ].
    + destruct (Rlt_dec (Rmin time (endTime - time)) 0) as [Hn | Hn].
      * left. split; [ | lra ]. cbn. exists (ease_in_out_sine 0).
        split; [ reflexivity | apply ease_in_out_sine_unit ].
      * right. cbn. repeat split; [ assumption | lra ].
  - left. split; [ now apply computeFade_unit | ]. intros [E _]. contradiction.
Qed.

Lemma instant_filter_fade :
  update_fade (instant_filter 100 100) 0 = NaN.
Proof.
  unfold update_fade, computeFade, ddiv.
  cbn [fadeDuration endTime instant_filter].
  destruct (Req_dec_T (0 * 10) 0) as [_ | Hne]; [ | lra ].
  assert (Em : Rmin 0 (1 / 100 * 1000 - 0) = 0) by (apply Rmin_left; lra).
  rewrite Em.
  destruct (Rlt_dec 0 0); [ lra | ]. reflexivity.
Qed.

(** C4, the failing frame: with a fade duration of 0 the first frame, at
    time 0, divides zero by zero; neither comparison of lines 102-105 holds
    for NaN, and the fade of the frame is NaN, which is no number of the
    unit interval. *)
Theorem C4_fade_not_a_number :
  update_fade (instant_filter 100 100) 0 = NaN /\
  ~ unit_fade (update_fade (instant_filter 100 100) 0).
Proof.
  split; [ exact instant_filter_fade | ].
  rewrite instant_filter_fade. intros (f & Hf & _). discriminate Hf.
Qed.

(** The same frame draws its enabled regions from an undefined geometry. *)
Lemma instant_filter_info :
  compute_info (instant_filter 100 100)
               (update_fade (instant_filter 100 100) 0)
  = [ None; None; None ].
Proof.
  unfold compute_info. rewrite instant_filter_fade. reflexivity.
Qed.

(** C5, as amended: half way to the end time the fade is exactly 1 for every
    positive fade duration of at most half the end time. *)
Theorem C5_midpoint_fade (endTime fadeDuration : R) :
  0 < fadeDuration -> fadeDuration <= endTime / 2 ->
  computeFade (endTime / 2) endTime fadeDuration = Fin 1.
Proof.
  intros Hd He. unfold computeFade, ddiv.
  destruct (Req_dec_T fadeDuration 0) as [E | _]; [ lra | ].
  assert (Em : Rmin (endTime / 2) (endTime - endTime / 2) = endTime / 2)
    by (apply Rmin_left; lra).
  rewrite Em.
  destruct (clamp_finite (endTime / 2 / fadeDuration))
    as (c & -> & _ & Hc & _).
  assert (Hq : 1 <= endTime / 2 / fadeDuration).
  { pose proof (Rinv_0_lt_compat fadeDuration Hd) as Hi.
    replace 1 with (fadeDuration * / fadeDuration) by (apply Rinv_r; lra).
    unfold Rdiv at 1. apply Rmult_le_compat_r; lra. }
  rewrite (Hc Hq). cbn [dease]. now rewrite ease_in_out_sine_1.
Qed.

(** The default timing: an end time of ten seconds and a fade of one. *)
Lemma C5_midpoint_fade_witness :
  computeFade (10 / 2) 10 1 = Fin 1.
Proof.
  apply (C5_midpoint_fade 10 1); lra.
Defined.

Lemma computeFade_half : computeFade (1 / 2) 1 1 = Fin (1 / 2).
Proof.
  unfold computeFade, ddiv.
  destruct (Req_dec_T 1 0) as [E | _]; [ lra | ].
  assert (Em : Rmin (1 / 2) (1 - 1 / 2) = 1 / 2) by (apply Rmin_left; lra).
  rewrite Em.
  destruct (clamp_finite (1 / 2 / 1)) as (c & -> & _ & _ & Hc).
  rewrite Hc by lra. cbn [dease].
  replace (1 / 2 / 1) with (1 / 2) by lra.
  now rewrite ease_in_out_sine_half.
Qed.

(** C5 fails as stated.  A fade duration equal to the end time is within
    the bound of the claim, and half way to the end time the fade is one
    half. *)
Lemma C5_equal_durations :
  computeFade (1 / 2) 1 1 = Fin (1 / 2) /\ ~ midpoint_fully_faded 1 1.
Proof.
  split; [ exact computeFade_half | ].
  unfold midpoint_fully_faded, approx_one. intros Hc.
  destruct Hc as (f & Hf & Hn); try lra.
  rewrite computeFade_half in Hf. injection Hf as <-.
  replace (1 / 2 - 1) with (- (1 / 2)) in Hn by lra.
  rewrite Rabs_Ropp, Rabs_pos_eq in Hn; lra.
Qed.

(** ** The compositor *)

Lemma magnified_loop_off (this : Loupe) (fade : double)
    (src : cairo_surface_t) (rs : list (Region * option Info)) :
  showMagnified this = false -> magnified_loop this fade src rs = Some [].
Proof.
  intros Hm. destruct rs as [ | [r i] rs' ]; [ reflexivity | ].
  cbn [magnified_loop]. rewrite Hm. reflexivity.
Qed.

Lemma wireframe_loop_off (this : Loupe)
    (rs : list (Region * option Info)) :
  showWireframe this = false -> wireframe_loop this rs = Some [].
Proof.
  intros Hw. destruct rs as [ | [r i] rs' ]; [ reflexivity | ].
  cbn [wireframe_loop]. rewrite Hw. reflexivity.
Qed.

(** A disabled region adds no call to either loop. *)
Lemma magnified_loop_disabled (this : Loupe) (fade : double)
    (src : cairo_surface_t) (r : Region) (i : option Info)
    (rs : list (Region * option Info)) :
  enable r = false ->
  magnified_loop this fade src ((r, i) :: rs)
  = if showMagnified this then magnified_loop this fade src rs else Some [].
Proof.
  intros He. cbn [magnified_loop]. rewrite He.
  destruct (showMagnified this); reflexivity.
Qed.

Lemma wireframe_loop_disabled (this : Loupe) (r : Region) (i : option Info)
    (rs : list (Region * option Info)) :
  enable r = false ->
  wireframe_loop this ((r, i) :: rs)
  = if showWireframe this then wireframe_loop this rs else Some [].
Proof.
  intros He. cbn [wireframe_loop]. rewrite He.
  destruct (showWireframe this); reflexivity.
Qed.

(** With both drawing loops off the frame is the drawing of the original
    image, whatever the fade. *)
Lemma update_calls_plain (this : Loupe) (fade : double)
    (src : cairo_surface_t) :
  showMagnified this = false -> showWireframe this = false ->
  update_calls this fade src = Some (draw_original this src).
Proof.
  intros Hm Hw. unfold update_calls.
  rewrite (magnified_loop_off _ _ _ _ Hm), (wireframe_loop_off _ _ Hw).
  cbn [app]. now rewrite app_nil_r.
Qed.

(** C8: with [showMagnified] and [showWireframe] off, the destination
    buffer after [update] is the source buffer, for every time, every
    configuration and every content of the buffers, given that the full-frame
    fill with operator SOURCE copies its source surface. *)
Theorem C8_plain_copy
    (cairo_exec : list cairo_call -> cairo_surface_t -> list pixel)
    (this : Loupe) (time : R) (rawDst rawSrc2 rawSrc : list pixel) :
  fill_source_copies cairo_exec ->
  showMagnified this = false -> showWireframe this = false ->
  update cairo_exec this time rawDst rawSrc2 rawSrc = Some rawSrc.
Proof.
  intros Hcopy Hm Hw. unfold update.
  rewrite (update_calls_plain _ _ _ Hm Hw).
  unfold draw_original.
  set (stride := cairo_format_stride_for_width (width this)).
  set (dst := cairo_image_surface_create_for_data
                rawDst (width this) (height this) stride).
  set (src := cairo_image_surface_create_for_data
                rawSrc (width this) (height this) stride).
  change (width this) with (surface_width dst) at 1.
  change (height this) with (surface_height dst) at 1.
  rewrite (Hcopy src dst); reflexivity.
Qed.

Lemma copy_exec_copies : fill_source_copies copy_exec.
Proof. intros s t _ _ _. reflexivity. Qed.

(** A frame of two by two pixels at time 1 with an enabled region. *)
Lemma C8_plain_copy_witness :
  update copy_exec (plain_filter 2 2) 1
         [ 0; 0; 0; 0 ]%N [ 9; 9; 9; 9 ]%N [ 1; 2; 3; 4 ]%N
  = Some [ 1; 2; 3; 4 ]%N.
Proof.
  apply (C8_plain_copy copy_exec (plain_filter 2 2) 1).
  - exact copy_exec_copies.
  - reflexivity.
  - reflexivity.
Defined.

(** C9: the destination buffer after [update] is the same for any two
    contents of the second source buffer. *)
Theorem C9_second_source_unused
    (cairo_exec : list cairo_call -> cairo_surface_t -> list pixel)
    (this : Loupe) (time : R) (rawDst rawSrc rawSrc2 rawSrc2' : list pixel) :
  update cairo_exec this time rawDst rawSrc2 rawSrc
  = update cairo_exec this time rawDst rawSrc2' rawSrc.
Proof. reflexivity. Qed.

(** ** The geometry on rational inputs *)

Lemma Q2R_inject_Z (z : Z) : Q2R (inject_Z z) = IZR z.
Proof. unfold Q2R, inject_Z. cbn [Qnum Qden]. lra. Qed.

Lemma Q2R_half : Q2R (1 # 2) = 1 / 2.
Proof. unfold Q2R. cbn [Qnum Qden]. lra. Qed.

Lemma dimQ_dim (n : N) : Q2R (dimQ n) = dim n.
Proof. apply Q2R_inject_Z. Qed.

Lemma trunc_Q2R (q : Q) : trunc (Q2R q) = truncQ q.
Proof.
  destruct q as [n d]. unfold Q2R, truncQ. cbn [Qnum Qden].
  set (k := Z.quot n (Zpos d)). set (m := Z.rem n (Zpos d)).
  set (v := IZR n * / IZR (Zpos d)).
  assert (Hd : (0 < Zpos d)%Z) by lia.
  assert (Hdr : 0 < IZR (Zpos d)) by (now apply IZR_lt).
  assert (Hn : IZR n = IZR (Zpos d) * IZR k + IZR m).
  { rewrite (Z.quot_rem' n (Zpos d)) at 1. now rewrite plus_IZR, mult_IZR. }
  assert (Hv : v * IZR (Zpos d) = IZR n) by (unfold v; field; lra).
  destruct (Z.le_gt_cases 0 n) as [Hp | Hneg].
  - destruct (Z.rem_bound_pos n (Zpos d) Hp Hd) as [Hr1 Hr2].
    fold m in Hr1, Hr2.
    apply IZR_le in Hr1. apply IZR_lt in Hr2. apply IZR_le in Hp.
    apply trunc_floor; [ nra | split; nra ].
  - assert (Hm : (- Zpos d < m <= 0)%Z).
    { assert (Hnz : Zpos d <> 0%Z) by lia.
      pose proof (Z.rem_bound_abs n (Zpos d) Hnz).
      pose proof (Z.rem_nonpos n (Zpos d) Hnz). unfold m. lia. }
    destruct Hm as [Hr1 Hr2].
    apply IZR_lt in Hr1. apply IZR_le in Hr2. apply IZR_lt in Hneg.
    rewrite opp_IZR in Hr1.
    apply trunc_ceil; [ nra | split; nra ].
Qed.

Lemma lerpQ_correct (f a b : Q) :
  lerp (Q2R f) (Q2R a) (Q2R b) = Q2R (lerpQ f a b).
Proof.
  unfold lerp, lerpQ.
  assert (E0 : Q2R 0 = 0) by (unfold Q2R; cbn [Qnum Qden]; lra).
  assert (E1 : Q2R 1 = 1) by (unfold Q2R; cbn [Qnum Qden]; lra).
  destruct (Qlt_le_dec 1 f) as [Hq | Hq].
  - apply Qlt_Rlt in Hq. rewrite E1 in Hq.
    destruct (Rlt_dec 1 (Q2R f)); [ | contradiction ].
    destruct (Qlt_le_dec 1 0) as [Hq0 | Hq0]; [ discriminate Hq0 | ].
    destruct (Rlt_dec 1 0); [ lra | ].
    rewrite Q2R_plus, !Q2R_mult, Q2R_minus, E1. reflexivity.
  - apply Qle_Rle in Hq. rewrite E1 in Hq.
    destruct (Rlt_dec 1 (Q2R f)); [ lra | ].
    destruct (Qlt_le_dec f 0) as [Hq0 | Hq0].
    + apply Qlt_Rlt in Hq0. rewrite E0 in Hq0.
      destruct (Rlt_dec (Q2R f) 0); [ | contradiction ].
      rewrite Q2R_plus, !Q2R_mult, Q2R_minus, E1, E0. reflexivity.
    + apply Qle_Rle in Hq0. rewrite E0 in Hq0.
      destruct (Rlt_dec (Q2R f) 0); [ lra | ].
      rewrite Q2R_plus, !Q2R_mult, Q2R_minus, E1. reflexivity.
Qed.

(** The reading of a rational expression as a real one. *)
Ltac push_Q2R :=
  repeat first
    [ rewrite Q2R_plus | rewrite Q2R_minus | rewrite Q2R_mult
    | rewrite Q2R_inject_Z | rewrite dimQ_dim | rewrite Q2R_half
    | rewrite <- lerpQ_correct ].

(** The geometry computed on rationals is the geometry of the filter. *)
Theorem region_info_Q_correct (e : bool) (r : RegionQ) (fade : Q) (W H : N) :
  region_info (Region_of_Q e r) (Q2R fade) W H
  = Info_of_Q (region_info_Q r fade W H).
Proof.
  assert (E1 : Q2R 1 = 1) by (unfold Q2R; cbn [Qnum Qden]; lra).
  assert (E2 : Q2R 2 = 2) by (unfold Q2R; cbn [Qnum Qden]; lra).
  assert (E10 : Q2R 10 = 10) by (unfold Q2R; cbn [Qnum Qden]; lra).
  unfold region_info, region_info_Q, Info_of_Q, Region_of_Q.
  cbn [x y srcSize srcCenter dstCenter dstZoom
       srcWidthQ srcHeightQ srcX0Q srcY0Q realZoomQ
       dstWidthQ dstHeightQ dstX0Q dstY0Q].
  rewrite <- !trunc_Q2R. push_Q2R. rewrite ?E1, ?E2, ?E10.
  reflexivity.
Qed.

(** The example of the specification, computed: the destination rectangle
    is 60 pixels wide from x = 80, so that its centre is at x = 110. *)
Lemma spec_example_Q_full_fade :
  let i := region_info_Q spec_example_Q 1 100 100 in
  (srcWidthQ i, srcHeightQ i, srcX0Q i, srcY0Q i) = (20, 20, 40, 40)%Z /\
  Qred (realZoomQ i) = 3%Q /\
  (dstWidthQ i, dstHeightQ i, dstX0Q i, dstY0Q i) = (60, 60, 80, -39)%Z.
Proof. vm_compute. repeat split. Qed.

(** The region on the border of the frame, computed. *)
Lemma border_Q_source :
  let i := region_info_Q border_Q 0 100 100 in
  (srcWidthQ i, srcHeightQ i, srcX0Q i, srcY0Q i) = (20, 20, -59, -59)%Z.
Proof. vm_compute. reflexivity. Qed.

Lemma Q2R_1 : Q2R 1 = 1.
Proof. unfold Q2R. cbn [Qnum Qden]. lra. Qed.

Lemma Q2R_0 : Q2R 0 = 0.
Proof. unfold Q2R. cbn [Qnum Qden]. lra. Qed.

Lemma spec_example_of_Q : Region_of_Q true spec_example_Q = spec_example_region.
Proof.
  unfold Region_of_Q, spec_example_Q, spec_example_region.
  cbn [srcCenterQ srcSizeQ dstCenterQ dstZoomQ fst snd].
  repeat f_equal; unfold Q2R; cbn [Qnum Qden]; lra.
Qed.

Lemma border_of_Q : Region_of_Q true border_Q = border_region.
Proof.
  unfold Region_of_Q, border_Q, border_region.
  cbn [srcCenterQ srcSizeQ dstCenterQ dstZoomQ fst snd].
  repeat f_equal; unfold Q2R; cbn [Qnum Qden]; lra.
Qed.

(** The computed geometries are the ones of the example regions. *)
Lemma spec_example_computed :
  region_info spec_example_region 1 100 100
  = Info_of_Q (region_info_Q spec_example_Q 1 100 100).
Proof.
  rewrite <- (region_info_Q_correct true), spec_example_of_Q, Q2R_1.
  reflexivity.
Qed.

Lemma border_computed :
  region_info border_region 0 100 100
  = Info_of_Q (region_info_Q border_Q 0 100 100).
Proof.
  rewrite <- (region_info_Q_correct true), border_of_Q, Q2R_0.
  reflexivity.
Qed.

(** * Further properties of the filter *)

(** ** The fade over time (lines 99-106) *)

(** With a fade duration other than zero the fade is the easing of the raw
    quotient clamped to the unit interval. *)
Lemma computeFade_closed_form (time endTime fadeDuration : R) :
  fadeDuration <> 0 ->
  computeFade time endTime fadeDuration
  = Fin (ease_in_out_sine
           (Rmax 0 (Rmin 1 (Rmin time (endTime - time) / fadeDuration)))).
Proof.
  intros Hd. unfold computeFade, ddiv.
  destruct (Req_dec_T fadeDuration 0) as [E | _]; [ contradiction | ].
  set (q := Rmin time (endTime - time) / fadeDuration).
  unfold dgt. destruct (Rlt_dec 1 q) as [H1 | H1].
  - unfold dlt. destruct (Rlt_dec 1 0); [ lra | ]. cbn [dease].
    rewrite (Rmin_left 1 q) by lra. rewrite (Rmax_right 0 1) by lra.
    reflexivity.
  - rewrite (Rmin_right 1 q) by lra.
    unfold dlt. destruct (Rlt_dec q 0) as [H0 | H0]; cbn [dease].
    + rewrite (Rmax_left 0 q) by lra. reflexivity.
    + rewrite (Rmax_right 0 q) by lra. reflexivity.
Qed.

(** The sign of a quotient by a positive divisor. *)
Lemma div_pos_sign (n d : R) :
  0 < d -> (n <= 0 -> n / d <= 0) /\ (d <= n -> 1 <= n / d).
Proof.
  intros Hd. pose proof (Rinv_0_lt_compat d Hd) as Hi.
  assert (E : d * / d = 1) by (apply Rinv_r; lra).
  unfold Rdiv. split; intros H; nra.
Qed.

(** X1: the fade of a frame is a number of the unit interval or it is NaN,
    never an infinity; it is NaN exactly when the fade duration is zero and
    the time is zero or the end time, so that zero is divided by zero. *)
Theorem X1_fade_unit_or_nan (time endTime fadeDuration : R) :
  (unit_fade (computeFade time endTime fadeDuration) /\
   ~ (fadeDuration = 0 /\ Rmin time (endTime - time) = 0)) \/
  (computeFade time endTime fadeDuration = NaN /\
   fadeDuration = 0 /\ Rmin time (endTime - time) = 0).
Proof. apply computeFade_cases. Qed.

(** X2: for a fade duration other than zero and an end time that is not
    negative, the effect is fully faded out on the first frame, at time 0,
    and at the end time. *)
Theorem X2_fade_boundaries (endTime fadeDuration : R) :
  fadeDuration <> 0 -> 0 <= endTime ->
  computeFade 0 endTime fadeDuration = Fin 0 /\
  computeFade endTime endTime fadeDuration = Fin 0.
Proof.
  intros Hd He. rewrite !computeFade_closed_form by assumption.
  replace (endTime - endTime) with 0 by lra.
  rewrite (Rmin_left 0 (endTime - 0)) by lra.
  rewrite (Rmin_right endTime 0) by lra.
  replace (0 / fadeDuration) with 0 by (unfold Rdiv; lra).
  rewrite (Rmin_right 1 0) by lra. rewrite (Rmax_left 0 0) by lra.
  rewrite ease_in_out_sine_0. split; reflexivity.
Qed.

Lemma X2_fade_boundaries_witness :
  computeFade 0 10 1 = Fin 0 /\ computeFade 10 10 1 = Fin 0.
Proof. apply (X2_fade_boundaries 10 1); lra. Defined.

(** X3: for a positive fade duration the effect is fully faded out before
    time 0 and after the end time. *)
Theorem X3_fade_outside (time endTime fadeDuration : R) :
  0 < fadeDuration -> time <= 0 \/ endTime <= time ->
  computeFade time endTime fadeDuration = Fin 0.
Proof.
  intros Hd Ht. rewrite computeFade_closed_form by lra.
  assert (Hm : Rmin time (endTime - time) <= 0).
  { destruct Ht as [Ht | Ht].
    - pose proof (Rmin_l time (endTime - time)). lra.
    - pose proof (Rmin_r time (endTime - time)). lra. }
  destruct (div_pos_sign (Rmin time (endTime - time)) fadeDuration Hd)
    as [Hq _].
  specialize (Hq Hm).
  rewrite (Rmin_right 1 _) by lra. rewrite (Rmax_left 0 _) by lra.
  now rewrite ease_in_out_sine_0.
Qed.

Lemma X3_fade_outside_witness :
  computeFade 12 10 1 = Fin 0.
Proof. apply (X3_fade_outside 12 10 1); lra. Defined.

(** X4: for a positive fade duration the effect is fully faded in from one
    fade duration after time 0 to one fade duration before the end time. *)
Theorem X4_fade_plateau (time endTime fadeDuration : R) :
  0 < fadeDuration ->
  fadeDuration <= time -> time <= endTime - fadeDuration ->
  computeFade time endTime fadeDuration = Fin 1.
Proof.
  intros Hd H1 H2. rewrite computeFade_closed_form by lra.
  assert (Hm : fadeDuration <= Rmin time (endTime - time)).
  { apply Rmin_glb; lra. }
  destruct (div_pos_sign (Rmin time (endTime - time)) fadeDuration Hd)
    as [_ Hq].
  specialize (Hq Hm).
  rewrite (Rmin_left 1 _) by lra. rewrite (Rmax_right 0 1) by lra.
  now rewrite ease_in_out_sine_1.
Qed.

Lemma X4_fade_plateau_witness :
  computeFade 3 10 1 = Fin 1.
Proof. apply (X4_fade_plateau 3 10 1); lra. Defined.

(** X5: the fade out mirrors the fade in: the fade at a time is the fade at
    the same distance from the end time, for every timing. *)
Theorem X5_fade_mirror (time endTime fadeDuration : R) :
  computeFade (endTime - time) endTime fadeDuration
  = computeFade time endTime fadeDuration.
Proof.
  unfold computeFade.
  replace (endTime - (endTime - time)) with time by lra.
  now rewrite Rmin_comm.
Qed.

Lemma clamp_monotone (p q : R) :
  p <= q -> Rmax 0 (Rmin 1 p) <= Rmax 0 (Rmin 1 q).
Proof.
  intros H. apply Rmax_case_strong; intros Hp.
  - apply Rmax_l.
  - eapply Rle_trans; [ | apply Rmax_r ].
    apply Rmin_glb; [ apply Rmin_l | ].
    pose proof (Rmin_r 1 p). lra.
Qed.

Lemma clamp_unit (q : R) : 0 <= Rmax 0 (Rmin 1 q) <= 1.
Proof.
  split; [ apply Rmax_l | ].
  apply Rmax_lub; [ lra | apply Rmin_l ].
Qed.

(** X6: for a positive fade duration the fade does not decrease over the
    first half of the run. *)
Theorem X6_fade_in_monotone (s t endTime fadeDuration : R) :
  0 < fadeDuration -> s <= t -> t <= endTime / 2 ->
  exists f g,
    computeFade s endTime fadeDuration = Fin f /\
    computeFade t endTime fadeDuration = Fin g /\
    f <= g.
Proof.
  intros Hd Hst Ht. rewrite !computeFade_closed_form by lra.
  eexists. eexists. split; [ reflexivity | ]. split; [ reflexivity | ].
  rewrite (Rmin_left s) by lra. rewrite (Rmin_left t) by lra.
  pose proof (clamp_unit (s / fadeDuration)) as [Hs0 _].
  pose proof (clamp_unit (t / fadeDuration)) as [_ Ht1].
  apply ease_in_out_sine_monotone; try assumption.
  apply clamp_monotone.
  pose proof (Rinv_0_lt_compat fadeDuration Hd). unfold Rdiv. nra.
Qed.

Lemma X6_fade_in_monotone_witness :
  exists f g,
    computeFade (1 / 4) 10 1 = Fin f /\
    computeFade (3 / 4) 10 1 = Fin g /\
    f <= g.
Proof. apply (X6_fade_in_monotone (1 / 4) (3 / 4) 10 1); lra. Defined.

(** X7: with a fade duration of zero the effect switches without a fade:
    it is fully faded in strictly between time 0 and the end time and fully
    faded out before and after. *)
Theorem X7_instant_fade (time endTime : R) :
  (0 < time < endTime -> computeFade time endTime 0 = Fin 1) /\
  (time < 0 \/ endTime < time -> computeFade time endTime 0 = Fin 0).
Proof.
  unfold computeFade, ddiv.
  destruct (Req_dec_T 0 0) as [_ | Hne]; [ | contradiction ].
  split.
  - intros [H0 H1].
    assert (Hm : 0 < Rmin time (endTime - time)) by (apply Rmin_glb_lt; lra).
    destruct (Rlt_dec 0 (Rmin time (endTime - time))); [ | contradiction ].
    cbn [dgt]. unfold dlt. destruct (Rlt_dec 1 0); [ lra | ].
    cbn [dease]. now rewrite ease_in_out_sine_1.
  - intros Ht.
    assert (Hm : Rmin time (endTime - time) < 0).
    { destruct Ht as [Ht | Ht].
      - pose proof (Rmin_l time (endTime - time)). lra.
      - pose proof (Rmin_r time (endTime - time)). lra. }
    destruct (Rlt_dec 0 (Rmin time (endTime - time))); [ lra | ].
    destruct (Rlt_dec (Rmin time (endTime - time)) 0); [ | contradiction ].
    cbn [dgt dlt dease]. now rewrite ease_in_out_sine_0.
Qed.

Lemma X7_instant_fade_witness :
  computeFade 3 10 0 = Fin 1 /\ computeFade 12 10 0 = Fin 0.
Proof.
  destruct (X7_instant_fade 3 10) as [Hin _].
  destruct (X7_instant_fade 12 10) as [_ Hout].
  split; [ apply Hin | apply Hout ]; lra.
Defined.

(** ** [lerp] (lines 17-23) *)

Lemma lerp_above (f a b : R) : 1 <= f -> lerp f a b = b.
Proof.
  intros Hf. unfold lerp.
  destruct (Rlt_dec 1 f) as [H1 | H1].
  - destruct (Rlt_dec 1 0); lra.
  - assert (E : f = 1) by lra. subst f.
    destruct (Rlt_dec 1 0); lra.
Qed.

Lemma lerp_below (f a b : R) : f <= 0 -> lerp f a b = a.
Proof.
  intros Hf. unfold lerp.
  destruct (Rlt_dec 1 f) as [H1 | H1]; [ lra | ].
  destruct (Rlt_dec f 0) as [H0 | H0]; [ lra | ].
  assert (E : f = 0) by lra. subst f. lra.
Qed.

(** X8: [lerp] never leaves the segment between its two values: a factor
    of 1 or more gives the second value, a factor of 0 or less gives the
    first, and every factor gives a value between the two. *)
Theorem X8_lerp_saturates (f a b : R) :
  (1 <= f -> lerp f a b = b) /\
  (f <= 0 -> lerp f a b = a) /\
  Rmin a b <= lerp f a b <= Rmax a b.
Proof.
  split; [ apply lerp_above | ].
  split; [ apply lerp_below | apply lerp_range ].
Qed.

Lemma X8_lerp_saturates_witness :
  lerp 3 1 2 = 2 /\ lerp (- 1) 1 2 = 1.
Proof.
  destruct (X8_lerp_saturates 3 1 2) as (Hhi & _ & _).
  destruct (X8_lerp_saturates (- 1) 1 2) as (_ & Hlo & _).
  split; [ apply Hhi | apply Hlo ]; lra.
Defined.

(** The factor [lerp] uses. *)
Lemma lerp_as_clamp (f a b : R) :
  lerp f a b
  = (1 - Rmax 0 (Rmin 1 f)) * a + Rmax 0 (Rmin 1 f) * b.
Proof.
  unfold lerp. destruct (Rlt_dec 1 f) as [H1 | H1].
  - destruct (Rlt_dec 1 0); [ lra | ].
    rewrite (Rmin_left 1 f) by lra. rewrite (Rmax_right 0 1) by lra.
    reflexivity.
  - rewrite (Rmin_right 1 f) by lra.
    destruct (Rlt_dec f 0) as [H0 | H0].
    + rewrite (Rmax_left 0 f) by lra. reflexivity.
    + rewrite (Rmax_right 0 f) by lra. reflexivity.
Qed.

Lemma lerp_monotone (f g a b : R) :
  a <= b -> f <= g -> lerp f a b <= lerp g a b.
Proof.
  intros Hab Hfg. rewrite !lerp_as_clamp.
  pose proof (clamp_monotone f g Hfg). nra.
Qed.

(** X9: toward a larger second value, [lerp] does not decrease in its
    factor, whether or not the factors are in the unit interval. *)
Theorem X9_lerp_monotone (f g a b : R) :
  a <= b -> f <= g -> lerp f a b <= lerp g a b.
Proof. apply lerp_monotone. Qed.

Lemma X9_lerp_monotone_witness :
  lerp (1 / 4) 1 2 <= lerp (3 / 4) 1 2.
Proof. apply (X9_lerp_monotone (1 / 4) (3 / 4) 1 2); lra. Defined.

(** ** Sizes of the destination rectangle (lines 137-139) *)

Lemma realZoom_lerp (r : Region) (fade : R) (W H : N) :
  realZoom (region_info r fade W H) = lerp fade 1 (dstZoom r * 10).
Proof. reflexivity. Qed.

Lemma realZoom_ge_1 (r : Region) (fade : R) (W H : N) :
  1 <= dstZoom r * 10 -> 1 <= realZoom (region_info r fade W H).
Proof.
  intros Hz. rewrite realZoom_lerp.
  destruct (lerp_range fade 1 (dstZoom r * 10)) as [Hlo _].
  rewrite (Rmin_left 1 _) in Hlo by lra. exact Hlo.
Qed.

Lemma scaled_size_ge (w : Z) (z : R) :
  (0 <= w)%Z -> 1 <= z -> (w <= trunc (IZR w * z + 1 / 2))%Z.
Proof.
  intros Hw Hz. rewrite <- (trunc_int_half w Hw) at 1.
  apply trunc_monotone. apply IZR_le in Hw. nra.
Qed.

Lemma scaled_size_monotone (w : Z) (z1 z2 : R) :
  (0 <= w)%Z -> z1 <= z2 ->
  (trunc (IZR w * z1 + 1 / 2) <= trunc (IZR w * z2 + 1 / 2))%Z.
Proof.
  intros Hw Hz. apply trunc_monotone. apply IZR_le in Hw. nra.
Qed.

(** X10: for a fade in [0,1], a source size in [0,1] and a zoom parameter
    from one tenth to 1 (a magnification of at least 1), the destination
    rectangle is at least as wide and as high as the source rectangle. *)
Theorem X10_dest_not_smaller (r : Region) (fade : R) (W H : N) :
  0 <= fade <= 1 ->
  0 <= x (srcSize r) <= 1 -> 0 <= y (srcSize r) <= 1 ->
  1 <= dstZoom r * 10 -> dstZoom r <= 1 ->
  let i := region_info r fade W H in
  (srcWidth i <= dstWidth i)%Z /\ (srcHeight i <= dstHeight i)%Z.
Proof.
  intros Hf [Hsx _] [Hsy _] Hz _ i.
  pose proof (srcWidth_nonneg r fade W H Hsx) as Hw0.
  pose proof (srcHeight_nonneg r fade W H Hsy) as Hh0.
  pose proof (realZoom_ge_1 r fade W H Hz) as Hz1.
  destruct (region_info_dest r fade W H) as (_ & Hdw & Hdh & _).
  fold i in Hdw, Hdh, Hw0, Hh0, Hz1.
  rewrite Hdw, Hdh. split; now apply scaled_size_ge.
Qed.

Lemma X10_dest_not_smaller_witness :
  let i := region_info default_region (1 / 2) 100 100 in
  (srcWidth i <= dstWidth i)%Z /\ (srcHeight i <= dstHeight i)%Z.
Proof.
  apply (X10_dest_not_smaller default_region (1 / 2) 100 100);
    cbn [x y srcSize dstZoom default_region]; lra.
Defined.

(** X11: for a source size that is not negative and a zoom parameter of at
    least one tenth, the zoom and the size of the destination rectangle do
    not decrease as the fade grows. *)
Theorem X11_dest_grows_with_fade (r : Region) (f g : R) (W H : N) :
  0 <= x (srcSize r) -> 0 <= y (srcSize r) -> 1 <= dstZoom r * 10 ->
  f <= g ->
  realZoom (region_info r f W H) <= realZoom (region_info r g W H) /\
  (dstWidth (region_info r f W H) <= dstWidth (region_info r g W H))%Z /\
  (dstHeight (region_info r f W H) <= dstHeight (region_info r g W H))%Z.
Proof.
  intros Hsx Hsy Hz Hfg.
  assert (Hzoom :
    realZoom (region_info r f W H) <= realZoom (region_info r g W H)).
  { rewrite !realZoom_lerp. now apply lerp_monotone. }
  pose proof (srcWidth_nonneg r f W H Hsx) as Hw0.
  pose proof (srcHeight_nonneg r f W H Hsy) as Hh0.
  destruct (region_info_dest r f W H) as (_ & Hfw & Hfh & _).
  destruct (region_info_dest r g W H) as (_ & Hgw & Hgh & _).
  split; [ exact Hzoom | ].
  rewrite Hfw, Hgw, Hfh, Hgh.
  split; now apply scaled_size_monotone.
Qed.

Lemma X11_dest_grows_with_fade_witness :
  realZoom (region_info default_region (1 / 4) 100 100)
  <= realZoom (region_info default_region (3 / 4) 100 100) /\
  (dstWidth (region_info default_region (1 / 4) 100 100)
   <= dstWidth (region_info default_region (3 / 4) 100 100))%Z /\
  (dstHeight (region_info default_region (1 / 4) 100 100)
   <= dstHeight (region_info default_region (3 / 4) 100 100))%Z.
Proof.
  apply (X11_dest_grows_with_fade default_region (1 / 4) (3 / 4) 100 100);
    cbn [x y srcSize dstZoom default_region]; lra.
Defined.

(** ** Centres of the rectangles (lines 131-134 and 140-149) *)

(** X12: for a fade in [0,1] and centres, sizes and zoom parameter in
    their range [0,1], the centre of the source rectangle is within two
    pixels of the remapped source centre, and the centre of the destination
    rectangle is within two pixels of the remapped point that [lerp] places
    between the source centre and the destination centre. *)
Theorem X12_centers_follow_fade (r : Region) (fade : R) (W H : N) :
  0 <= fade <= 1 ->
  0 <= x (srcCenter r) <= 1 -> 0 <= y (srcCenter r) <= 1 ->
  0 <= x (dstCenter r) <= 1 -> 0 <= y (dstCenter r) <= 1 ->
  0 <= x (srcSize r) <= 1 -> 0 <= y (srcSize r) <= 1 ->
  0 <= dstZoom r <= 1 ->
  let i := region_info r fade W H in
  within_rounding (rect_center (srcX0 i) (srcWidth i))
                  ((x (srcCenter r) * 2 - 1 / 2) * dim W) /\
  within_rounding (rect_center (srcY0 i) (srcHeight i))
                  ((y (srcCenter r) * 2 - 1 / 2) * dim H) /\
  within_rounding
    (rect_center (dstX0 i) (dstWidth i))
    ((((1 - fade) * x (srcCenter r) + fade * x (dstCenter r)) * 2 - 1 / 2)
     * dim W) /\
  within_rounding
    (rect_center (dstY0 i) (dstHeight i))
    ((((1 - fade) * y (srcCenter r) + fade * y (dstCenter r)) * 2 - 1 / 2)
     * dim H).
Proof.
  intros Hf _ _ _ _ _ _ _ i.
  destruct (region_info_source r fade W H) as (_ & _ & Hsx & Hsy).
  destruct (region_info_dest r fade W H) as (_ & _ & _ & Hdx & Hdy).
  fold i in Hsx, Hsy, Hdx, Hdy.
  rewrite Hsx, Hsy, Hdx, Hdy.
  rewrite !(lerp_unit fade) by assumption.
  repeat split; apply center_within_rounding.
Qed.

Lemma X12_centers_follow_fade_witness :
  let i := region_info spec_example_region (1 / 2) 100 100 in
  within_rounding (rect_center (dstX0 i) (dstWidth i))
    ((((1 - 1 / 2) * (1 / 2) + 1 / 2 * (8 / 10)) * 2 - 1 / 2) * dim 100).
Proof.
  apply (X12_centers_follow_fade spec_example_region (1 / 2) 100 100);
    cbn [x y srcCenter dstCenter srcSize dstZoom spec_example_region]; lra.
Defined.

(** ** Empty regions *)

(** X13: for a fade and a zoom parameter in [0,1], a region of source
    width zero has a source and a destination rectangle of width zero, and
    likewise for the height. *)
Theorem X13_empty_region (r : Region) (fade : R) (W H : N) :
  0 <= fade <= 1 -> 0 <= dstZoom r <= 1 ->
  let i := region_info r fade W H in
  (x (srcSize r) = 0 -> srcWidth i = 0%Z /\ dstWidth i = 0%Z) /\
  (y (srcSize r) = 0 -> srcHeight i = 0%Z /\ dstHeight i = 0%Z).
Proof.
  intros _ _ i.
  destruct (region_info_source r fade W H) as (Hw & Hh & _).
  destruct (region_info_dest r fade W H) as (_ & Hdw & Hdh & _).
  fold i in Hw, Hh, Hdw, Hdh.
  split; intros E.
  - assert (Ew : srcWidth i = 0%Z).
    { rewrite Hw, E. apply trunc_floor; lra. }
    split; [ exact Ew | ].
    rewrite Hdw, Ew. apply trunc_floor; lra.
  - assert (Eh : srcHeight i = 0%Z).
    { rewrite Hh, E. apply trunc_floor; lra. }
    split; [ exact Eh | ].
    rewrite Hdh, Eh. apply trunc_floor; lra.
Qed.

Lemma X13_empty_region_witness :
  let i := region_info
             {| enable := true;
                srcCenter := mkPos (1 / 2) (1 / 2);
                srcSize := mkPos 0 0;
                dstCenter := mkPos (1 / 2) (1 / 2);
                dstZoom := 1 |} (1 / 2) 100 100 in
  (srcWidth i = 0%Z /\ dstWidth i = 0%Z) /\
  (srcHeight i = 0%Z /\ dstHeight i = 0%Z).
Proof.
  cbv zeta.
  match goal with
  | |- context [region_info ?r ?f ?w ?h] =>
      assert (Hf : 0 <= f <= 1) by lra;
      assert (Hz : 0 <= dstZoom r <= 1) by (cbn [dstZoom]; lra);
      destruct (X13_empty_region r f w h Hf Hz) as [Hx Hy]
  end.
  split; [ apply Hx | apply Hy ]; reflexivity.
Defined.

Lemma rest_geometry (r : Region) (W H : N) :
  0 <= x (srcSize r) -> 0 <= y (srcSize r) ->
  dest_equals_source (region_info r 0 W H).
Proof.
  intros Hsx Hsy.
  pose proof (srcWidth_nonneg r 0 W H Hsx) as Hw0.
  pose proof (srcHeight_nonneg r 0 W H Hsy) as Hh0.
  destruct (region_info_source r 0 W H) as (_ & _ & Hx & Hy).
  destruct (region_info_dest r 0 W H) as (Hz & Hdw & Hdh & Hdx & Hdy).
  rewrite lerp_0 in Hz.
  assert (Ew : dstWidth (region_info r 0 W H) = srcWidth (region_info r 0 W H))
    by (rewrite Hdw, Hz, Rmult_1_r; now apply trunc_int_half).
  assert (Eh :
    dstHeight (region_info r 0 W H) = srcHeight (region_info r 0 W H))
    by (rewrite Hdh, Hz, Rmult_1_r; now apply trunc_int_half).
  unfold dest_equals_source. repeat split; try assumption.
  - rewrite Hdx, Hx, lerp_0, Ew. reflexivity.
  - rewrite Hdy, Hy, lerp_0, Eh. reflexivity.
Qed.

(** X14: at fade 0, for a source size that is not negative, the drawing of
    a region sets every line width to zero, scales by 1 and translates back
    by what it translated forth: the magnified image is painted in place. *)
Theorem X14_rest_overlay (this : Loupe) (src : cairo_surface_t) (r : Region) :
  0 <= x (srcSize r) -> 0 <= y (srcSize r) ->
  let i := region_info r 0 (width this) (height this) in
  line_widths (draw_magnified this 0 src i r) = [ 0; 0; 0 ] /\
  transforms (draw_magnified this 0 src i r)
  = [ cairo_scale 1 1;
      cairo_translate (Fin (IZR (- srcX0 i))) (Fin (IZR (- srcY0 i)));
      cairo_translate (Fin (IZR (srcX0 i))) (Fin (IZR (srcY0 i))) ].
Proof.
  intros Hsx Hsy i.
  destruct (rest_geometry r (width this) (height this) Hsx Hsy)
    as (Ex & Ey & _ & _ & Ez).
  fold i in Ex, Ey, Ez.
  unfold draw_magnified. cbn [line_widths transforms].
  rewrite Rmult_0_l, !lerp_0, Ez, Ex, Ey.
  split; [ reflexivity | ].
  unfold ddiv. destruct (Req_dec_T 1 0) as [E | _]; [ lra | ].
  now rewrite !Rdiv_1_r.
Qed.

Lemma X14_rest_overlay_witness :
  let this := Loupe_new 100 100 in
  let i := region_info default_region 0 100 100 in
  line_widths (draw_magnified this 0
                 (cairo_image_surface_create_for_data [] 100 100 400)
                 i default_region)
  = [ 0; 0; 0 ].
Proof.
  cbv zeta.
  apply (X14_rest_overlay (Loupe_new 100 100)
           (cairo_image_surface_create_for_data [] 100 100 400)
           default_region);
    cbn [x y srcSize default_region]; lra.
Defined.

(** X15: for a fade in the unit interval the line of the pointer and the
    outline of its bubble are as wide as the fade times their parameter
    (scaled by 100 height / 1080), and the outline of the magnified image
    grows three times as fast: it has its full width from a third of the
    fade on. *)
Theorem X15_line_widths (this : Loupe) (fade : R) (src : cairo_surface_t)
    (i : Info) (r : Region) :
  0 <= fade <= 1 ->
  line_widths (draw_magnified this fade src i r)
  = [ fade * (pointerWidth this * 100 * dim (height this) / 1080);
      fade * (pointerOutlineWidth this * 100 * dim (height this) / 1080);
      Rmin 1 (3 * fade)
      * (outlineWidth this * 100 * dim (height this) / 1080) ].
Proof.
  intros Hf. unfold draw_magnified. cbn [line_widths].
  rewrite !(lerp_unit fade) by assumption.
  f_equal; [ lra | ]. f_equal; [ lra | ]. f_equal.
  apply Rmin_case_strong; intros H3.
  - rewrite lerp_above by lra. lra.
  - rewrite lerp_unit by lra. lra.
Qed.

Lemma X15_line_widths_witness :
  line_widths (draw_magnified (Loupe_new 100 100) (1 / 2)
                 (cairo_image_surface_create_for_data [] 100 100 400)
                 (region_info default_region (1 / 2) 100 100)
                 default_region)
  = [ 1 / 2 * (6 / 100 * 100 * dim 100 / 1080);
      1 / 2 * (3 / 100 * 100 * dim 100 / 1080);
      Rmin 1 (3 * (1 / 2)) * (3 / 100 * 100 * dim 100 / 1080) ].
Proof.
  apply (X15_line_widths (Loupe_new 100 100) (1 / 2)). lra.
Defined.

(** ** The two drawing loops (lines 153-224) *)

Lemma save_depth_app (d d' : nat) (xs ys : list cairo_call) :
  save_depth d xs = Some d' ->
  save_depth d (xs ++ ys) = save_depth d' ys.
Proof.
  revert d. induction xs as [ | c xs IH ]; intros d Hd.
  - cbn in Hd. injection Hd as ->. reflexivity.
  - destruct c; cbn [save_depth app] in *; try (now apply IH).
    destruct d as [ | d0 ]; [ discriminate Hd | now apply IH ].
Qed.

Lemma draw_magnified_depth (this : Loupe) (f : R) (src : cairo_surface_t)
    (i : Info) (r : Region) (d : nat) :
  save_depth d (draw_magnified this f src i r) = Some d.
Proof. reflexivity. Qed.

Lemma draw_wireframe_depth (i : Info) (d : nat) :
  save_depth d (draw_wireframe i) = Some d.
Proof. reflexivity. Qed.

Lemma draw_magnified_length (this : Loupe) (f : R) (src : cairo_surface_t)
    (i : Info) (r : Region) :
  length (draw_magnified this f src i r) = 29%nat.
Proof. reflexivity. Qed.

Lemma draw_wireframe_length (i : Info) :
  length (draw_wireframe i) = 20%nat.
Proof. reflexivity. Qed.

Lemma combine_map_snd {A B : Type} (g : A -> B) (l : list A) :
  combine l (map g l) = map (fun a => (a, g a)) l.
Proof.
  induction l as [ | a l IH ]; [ reflexivity | ].
  cbn [map combine]. now rewrite IH.
Qed.

Lemma loop_pairs_finite (this : Loupe) (f : R) :
  loop_pairs this (Fin f)
  = map (fun r => (r, Some (region_info r f (width this) (height this))))
        (firstn numRegions (regions this)).
Proof. unfold loop_pairs, compute_info. apply combine_map_snd. Qed.

Lemma update_calls_loops (this : Loupe) (fade : double)
    (src : cairo_surface_t) :
  update_calls this fade src
  = match magnified_loop this fade src (loop_pairs this fade),
          wireframe_loop this (loop_pairs this fade) with
    | Some magnified, Some wireframe =>
        Some (draw_original this src ++ magnified ++ wireframe)
    | _, _ => None
    end.
Proof. reflexivity. Qed.

(** The first loop on regions whose geometry is defined. *)
Lemma magnified_loop_finite (this : Loupe) (f : R) (src : cairo_surface_t)
    (l : list Region) :
  exists calls,
    magnified_loop this (Fin f) src
      (map (fun r => (r, Some (region_info r f (width this) (height this))))
           l)
    = Some calls /\
    length calls
    = if showMagnified this then (29 * length (filter enable l))%nat
      else 0%nat.
Proof.
  induction l as [ | r l (calls & Hc & Hl) ].
  - exists []. split; [ reflexivity | ].
    destruct (showMagnified this); reflexivity.
  - cbn [map magnified_loop filter].
    destruct (showMagnified this) eqn:Hm; cbn [negb].
    + destruct (enable r) eqn:He; cbn [negb].
      * rewrite Hc. eexists. split; [ reflexivity | ].
        rewrite length_app, draw_magnified_length, Hl.
        cbn [length]. lia.
      * exists calls. split; [ exact Hc | exact Hl ].
    + exists []. split; reflexivity.
Qed.

Lemma wireframe_loop_finite (this : Loupe) (f : R) (l : list Region) :
  exists calls,
    wireframe_loop this
      (map (fun r => (r, Some (region_info r f (width this) (height this))))
           l)
    = Some calls /\
    length calls
    = if showWireframe this then (20 * length (filter enable l))%nat
      else 0%nat.
Proof.
  induction l as [ | r l (calls & Hc & Hl) ].
  - exists []. split; [ reflexivity | ].
    destruct (showWireframe this); reflexivity.
  - cbn [map wireframe_loop filter].
    destruct (showWireframe this) eqn:Hm; cbn [negb].
    + destruct (enable r) eqn:He; cbn [negb].
      * rewrite Hc. eexists. split; [ reflexivity | ].
        rewrite length_app, draw_wireframe_length, Hl.
        cbn [length]. lia.
      * exists calls. split; [ exact Hc | exact Hl ].
    + exists []. split; reflexivity.
Qed.

(** X16: for a finite fade every frame is drawn: the calls are those of the
    original image, then 29 calls for every enabled region when
    [showMagnified] is set, then 20 calls for every enabled region when
    [showWireframe] is set. *)
Theorem X16_frame_calls (this : Loupe) (f : R) (src : cairo_surface_t) :
  exists magnified wireframe,
    update_calls this (Fin f) src
    = Some (draw_original this src ++ magnified ++ wireframe) /\
    length magnified
    = (if showMagnified this then 29 * enabled_regions this else 0)%nat /\
    length wireframe
    = (if showWireframe this then 20 * enabled_regions this else 0)%nat.
Proof.
  rewrite update_calls_loops, loop_pairs_finite.
  destruct (magnified_loop_finite this f src
              (firstn numRegions (regions this))) as (m & -> & Hm).
  destruct (wireframe_loop_finite this f
              (firstn numRegions (regions this))) as (w & -> & Hw).
  exists m, w. split; [ reflexivity | ].
  split; assumption.
Qed.

(** The loops restore every state they save, whatever the geometry. *)
Lemma magnified_loop_depth (this : Loupe) (fade : double)
    (src : cairo_surface_t) (rs : list (Region * option Info)) :
  forall calls, magnified_loop this fade src rs = Some calls ->
  forall d, save_depth d calls = Some d.
Proof.
  induction rs as [ | [r i] rs IH ]; intros calls Hc d.
  - injection Hc as <-. reflexivity.
  - cbn [magnified_loop] in Hc.
    destruct (negb (showMagnified this)).
    + injection Hc as <-. reflexivity.
    + destruct (negb (enable r)); [ now apply IH | ].
      destruct fade as [f | | | ]; try discriminate Hc.
      destruct i as [i | ]; [ | discriminate Hc ].
      destruct (magnified_loop this (Fin f) src rs) as [rest | ];
        [ | discriminate Hc ].
      injection Hc as <-.
      change (save_depth d (draw_magnified this f src i r ++ rest) = Some d).
      rewrite (save_depth_app d d) by apply draw_magnified_depth.
      now apply IH.
Qed.

Lemma wireframe_loop_depth (this : Loupe)
    (rs : list (Region * option Info)) :
  forall calls, wireframe_loop this rs = Some calls ->
  forall d, save_depth d calls = Some d.
Proof.
  induction rs as [ | [r i] rs IH ]; intros calls Hc d.
  - injection Hc as <-. reflexivity.
  - cbn [wireframe_loop] in Hc.
    destruct (negb (showWireframe this)).
    + injection Hc as <-. reflexivity.
    + destruct (negb (enable r)); [ now apply IH | ].
      destruct i as [i | ]; [ | discriminate Hc ].
      destruct (wireframe_loop this rs) as [rest | ]; [ | discriminate Hc ].
      injection Hc as <-.
      change (save_depth d (draw_wireframe i ++ rest) = Some d).
      rewrite (save_depth_app d d) by apply draw_wireframe_depth.
      now apply IH.
Qed.

(** X17: the calls of a frame keep the stack of saved states balanced: no
    call restores a state that was not saved, and no saved state is left at
    the end of the frame. *)
Theorem X17_saves_balanced (this : Loupe) (fade : double)
    (src : cairo_surface_t) (calls : list cairo_call) :
  update_calls this fade src = Some calls ->
  save_depth 0 calls = Some 0%nat.
Proof.
  rewrite update_calls_loops. intros Hc.
  destruct (magnified_loop this fade src (loop_pairs this fade))
    as [m | ] eqn:Hm; [ | discriminate Hc ].
  destruct (wireframe_loop this (loop_pairs this fade))
    as [w | ] eqn:Hw; [ | discriminate Hc ].
  injection Hc as <-.
  change (save_depth 0 (draw_original this src ++ m ++ w) = Some 0%nat).
  rewrite (save_depth_app 0 0) by reflexivity.
  rewrite (save_depth_app 0 0)
    by (now apply (magnified_loop_depth _ _ _ _ _ Hm)).
  now apply (wireframe_loop_depth _ _ _ Hw).
Qed.

Lemma X17_saves_balanced_witness :
  exists calls,
    update_calls enabled_filter (Fin 1)
      (cairo_image_surface_create_for_data [] 100 100 400) = Some calls /\
    save_depth 0 calls = Some 0%nat.
Proof.
  eexists. split; [ reflexivity | ].
  apply (X17_saves_balanced enabled_filter (Fin 1)
           (cairo_image_surface_create_for_data [] 100 100 400)).
  reflexivity.
Defined.

(** The loops on regions that are all disabled. *)
Lemma magnified_loop_all_disabled (this : Loupe) (fade : double)
    (src : cairo_surface_t) (rs : list (Region * option Info)) :
  (forall p, In p rs -> enable (fst p) = false) ->
  magnified_loop this fade src rs = Some [].
Proof.
  induction rs as [ | [r i] rs IH ]; intros Hd; [ reflexivity | ].
  cbn [magnified_loop].
  destruct (negb (showMagnified this)); [ reflexivity | ].
  assert (He : enable r = false) by (apply (Hd (r, i)); left; reflexivity).
  rewrite He. cbn [negb].
  apply IH. intros p Hp. apply Hd. now right.
Qed.

Lemma wireframe_loop_all_disabled (this : Loupe)
    (rs : list (Region * option Info)) :
  (forall p, In p rs -> enable (fst p) = false) ->
  wireframe_loop this rs = Some [].
Proof.
  induction rs as [ | [r i] rs IH ]; intros Hd; [ reflexivity | ].
  cbn [wireframe_loop].
  destruct (negb (showWireframe this)); [ reflexivity | ].
  assert (He : enable r = false) by (apply (Hd (r, i)); left; reflexivity).
  rewrite He. cbn [negb].
  apply IH. intros p Hp. apply Hd. now right.
Qed.

Lemma loop_pairs_regions (this : Loupe) (fade : double)
    (p : Region * option Info) :
  In p (loop_pairs this fade) -> In (fst p) (regions this).
Proof.
  destruct p as [r i]. intros Hp. unfold loop_pairs in Hp.
  apply in_combine_l in Hp. cbn [fst].
  rewrite <- (firstn_skipn numRegions (regions this)).
  apply in_or_app. now left.
Qed.

Lemma update_calls_all_disabled (this : Loupe) (fade : double)
    (src : cairo_surface_t) :
  (forall r, In r (regions this) -> enable r = false) ->
  update_calls this fade src = Some (draw_original this src).
Proof.
  intros Hd. rewrite update_calls_loops.
  assert (Hp : forall p, In p (loop_pairs this fade) ->
                         enable (fst p) = false).
  { intros p Hp. apply Hd. now apply (loop_pairs_regions this fade). }
  rewrite (magnified_loop_all_disabled _ _ _ _ Hp).
  rewrite (wireframe_loop_all_disabled _ _ Hp).
  cbn [app]. now rewrite app_nil_r.
Qed.

Lemma update_of_original
    (cairo_exec : list cairo_call -> cairo_surface_t -> list pixel)
    (this : Loupe) (time : R) (rawDst rawSrc2 rawSrc : list pixel) :
  fill_source_copies cairo_exec ->
  (forall src, update_calls this (update_fade this time) src
               = Some (draw_original this src)) ->
  update cairo_exec this time rawDst rawSrc2 rawSrc = Some rawSrc.
Proof.
  intros Hcopy Hcalls. unfold update. rewrite Hcalls.
  unfold draw_original.
  set (stride := cairo_format_stride_for_width (width this)).
  set (dst := cairo_image_surface_create_for_data
                rawDst (width this) (height this) stride).
  set (src := cairo_image_surface_create_for_data
                rawSrc (width this) (height this) stride).
  change (width this) with (surface_width dst) at 1.
  change (height this) with (surface_height dst) at 1.
  rewrite (Hcopy src dst); reflexivity.
Qed.

(** X18: a filter none of whose regions is enabled draws the original image
    and nothing else, whatever its two flags, its other parameters and the
    time -- also on a frame whose fade is NaN; its destination buffer is
    then the source buffer, given that the full-frame fill with operator
    SOURCE copies its source surface. *)
Theorem X18_no_region_enabled
    (cairo_exec : list cairo_call -> cairo_surface_t -> list pixel)
    (this : Loupe) (time : R) (rawDst rawSrc2 rawSrc : list pixel) :
  (forall r, In r (regions this) -> enable r = false) ->
  (forall fade src,
     update_calls this fade src = Some (draw_original this src)) /\
  (fill_source_copies cairo_exec ->
   update cairo_exec this time rawDst rawSrc2 rawSrc = Some rawSrc).
Proof.
  intros Hd. split.
  - intros fade src. now apply update_calls_all_disabled.
  - intros Hcopy. apply update_of_original; [ exact Hcopy | ].
    intros src. now apply update_calls_all_disabled.
Qed.

Lemma Loupe_new_disabled (w h : N) (r : Region) :
  In r (regions (Loupe_new w h)) -> enable r = false.
Proof.
  cbn [regions Loupe_new]. intros Hr.
  apply repeat_spec in Hr. subst r. reflexivity.
Qed.

(** A filter without a fade on its first frame, with no region enabled. *)
Lemma X18_no_region_enabled_witness :
  update copy_exec (instant_filter 2 2) 0
         [ 0; 0; 0; 0 ]%N [ 9; 9; 9; 9 ]%N [ 1; 2; 3; 4 ]%N
  = Some [ 1; 2; 3; 4 ]%N.
Proof.
  apply (X18_no_region_enabled copy_exec (instant_filter 2 2) 0).
  - cbn [regions instant_filter]. intros r Hr.
    apply repeat_spec in Hr. subst r. reflexivity.
  - exact copy_exec_copies.
Defined.

(** X19: a filter as the constructor leaves it, with both flags set and
    every region disabled, copies the source buffer to the destination
    buffer at every time and for every frame size, given that the full-frame
    fill with operator SOURCE copies its source surface. *)
Theorem X19_constructed_filter_copies
    (cairo_exec : list cairo_call -> cairo_surface_t -> list pixel)
    (w h : N) (time : R) (rawDst rawSrc2 rawSrc : list pixel) :
  fill_source_copies cairo_exec ->
  showMagnified (Loupe_new w h) = true /\
  showWireframe (Loupe_new w h) = true /\
  update cairo_exec (Loupe_new w h) time rawDst rawSrc2 rawSrc
  = Some rawSrc.
Proof.
  intros Hcopy. split; [ reflexivity | ]. split; [ reflexivity | ].
  apply update_of_original; [ exact Hcopy | ].
  intros src. apply update_calls_all_disabled.
  apply Loupe_new_disabled.
Qed.

Lemma X19_constructed_filter_copies_witness :
  update copy_exec (Loupe_new 2 2) 5
         [ 0; 0; 0; 0 ]%N [ 9; 9; 9; 9 ]%N [ 1; 2; 3; 4 ]%N
  = Some [ 1; 2; 3; 4 ]%N.
Proof.
  apply (X19_constructed_filter_copies copy_exec 2 2 5).
  exact copy_exec_copies.
Defined.

(** ** Conversions between [int] and [unsigned] *)

Lemma to_unsigned_nonneg (z : Z) :
  (0 <= z < 2 ^ 32)%Z -> to_unsigned z = z.
Proof. intros Hz. unfold to_unsigned. now apply Z.mod_small. Qed.

Lemma to_unsigned_neg (z : Z) :
  (- 2 ^ 32 <= z < 0)%Z -> to_unsigned z = (z + 2 ^ 32)%Z.
Proof.
  intros Hz. unfold to_unsigned.
  symmetry. apply (Z.mod_unique z (2 ^ 32) (-1)); lia.
Qed.

Lemma to_unsigned_range (z : Z) : (0 <= to_unsigned z < 2 ^ 32)%Z.
Proof. unfold to_unsigned. apply Z.mod_pos_bound. lia. Qed.

Lemma to_int_to_unsigned (z : Z) :
  (- 2 ^ 31 <= z < 2 ^ 31)%Z -> to_int (to_unsigned z) = z.
Proof.
  intros Hz. unfold to_int, to_unsigned.
  rewrite Zplus_mod_idemp_l.
  rewrite Z.mod_small by lia. lia.
Qed.

(** ** Frame bounds (lines 231-233) *)

Lemma isInFrame_unsigned (this : Loupe) (ux uy : N) :
  isInFrame this ux uy = true <->
  (ux < width this)%N /\ (uy < height this)%N.
Proof.
  unfold isInFrame.
  rewrite !andb_true_iff, !N.leb_le, !N.ltb_lt.
  split.
  - intros [[[_ Hx] _] Hy]. split; assumption.
  - intros [Hx Hy]. repeat split; try assumption; apply N.le_0_l.
Qed.

(** X20: [isInFrame] holds exactly for the pixels of the frame; its tests
    against 0 never fail, and a negative [int] coordinate is rejected all
    the same, because its conversion to [unsigned] is at least 2^31 (for a
    frame of at most 2^31 pixels a side). *)
Theorem X20_isInFrame (this : Loupe) (px py : Z) :
  (- 2 ^ 31 <= px < 2 ^ 31)%Z -> (- 2 ^ 31 <= py < 2 ^ 31)%Z ->
  (Z.of_N (width this) <= 2 ^ 31)%Z -> (Z.of_N (height this) <= 2 ^ 31)%Z ->
  (isInFrame this (unsigned_of_int px) (unsigned_of_int py) = true <->
   (0 <= px < Z.of_N (width this))%Z /\ (0 <= py < Z.of_N (height this))%Z).
Proof.
  intros Hx Hy Hw Hh. rewrite isInFrame_unsigned. unfold unsigned_of_int.
  pose proof (to_unsigned_range px) as Rx.
  pose proof (to_unsigned_range py) as Ry.
  assert (Ex : (Z.to_N (to_unsigned px) < width this)%N
               <-> (to_unsigned px < Z.of_N (width this))%Z) by lia.
  assert (Ey : (Z.to_N (to_unsigned py) < height this)%N
               <-> (to_unsigned py < Z.of_N (height this))%Z) by lia.
  rewrite Ex, Ey.
  destruct (Z.lt_ge_cases px 0) as [Nx | Px];
    destruct (Z.lt_ge_cases py 0) as [Ny | Py];
    rewrite ?(to_unsigned_neg px), ?(to_unsigned_neg py),
      ?(to_unsigned_nonneg px), ?(to_unsigned_nonneg py) by lia;
    lia.
Qed.

Lemma X20_isInFrame_witness :
  isInFrame (Loupe_new 100 100) (unsigned_of_int 40) (unsigned_of_int 99)
  = true /\
  isInFrame (Loupe_new 100 100) (unsigned_of_int (-1)) (unsigned_of_int 99)
  = false.
Proof.
  assert (Hw : (Z.of_N (width (Loupe_new 100 100)) <= 2 ^ 31)%Z)
    by (cbn; lia).
  assert (Hh : (Z.of_N (height (Loupe_new 100 100)) <= 2 ^ 31)%Z)
    by (cbn; lia).
  split.
  - apply (X20_isInFrame (Loupe_new 100 100) 40 99); cbn; lia.
  - destruct (isInFrame (Loupe_new 100 100) (unsigned_of_int (-1))
                (unsigned_of_int 99)) eqn:E; [ | reflexivity ].
    apply (X20_isInFrame (Loupe_new 100 100) (-1) 99) in E;
      [ lia | cbn; lia | cbn; lia | exact Hw | exact Hh ].
Defined.

(** ** The debug frame (lines 201-215) *)

(** X21: for a rectangle whose [int] origin and size fit with its centre,
    [drawFrame] draws the cross around the centre of the rectangle (the
    origin plus the [int] half of the size), also when the origin is
    negative.  The outline of the rectangle starts one and a half pixels
    before the origin when the origin is not negative; a negative origin is
    read as [unsigned], and the outline starts 2^32 pixels further. *)
Theorem X21_drawFrame (x0 y0 w h : Z) :
  (- 2 ^ 31 <= x0 < 2 ^ 31)%Z -> (- 2 ^ 31 <= y0 < 2 ^ 31)%Z ->
  (0 <= w < 2 ^ 31)%Z -> (0 <= h < 2 ^ 31)%Z ->
  (- 2 ^ 31 <= x0 + Z.quot w 2 < 2 ^ 31)%Z ->
  (- 2 ^ 31 <= y0 + Z.quot h 2 < 2 ^ 31)%Z ->
  let cx := (x0 + Z.quot w 2)%Z in
  let cy := (y0 + Z.quot h 2)%Z in
  let shift (z : Z) := if (z <? 0)%Z then (z + 2 ^ 32)%Z else z in
  drawFrame (to_unsigned x0) (to_unsigned y0)
            (to_unsigned w) (to_unsigned h)
  = [ cairo_set_line_width 3;
      cairo_set_operator CAIRO_OPERATOR_DIFFERENCE;
      cairo_rectangle (IZR (shift x0) - 3 / 2) (IZR (shift y0) - 3 / 2)
                      (IZR w + 3) (IZR h + 3);
      cairo_stroke;
      cairo_move_to (IZR (cx - 10)) (IZR (cy - 10));
      cairo_line_to (IZR (cx + 10)) (IZR (cy + 10));
      cairo_move_to (IZR (cx - 10)) (IZR (cy + 10));
      cairo_line_to (IZR (cx + 10)) (IZR (cy - 10));
      cairo_stroke ].
Proof.
  intros Hx Hy Hw Hh Hcx Hcy cx cy shift.
  assert (Ew : to_unsigned w = w) by (apply to_unsigned_nonneg; lia).
  assert (Eh : to_unsigned h = h) by (apply to_unsigned_nonneg; lia).
  assert (Qw : (w / 2 = Z.quot w 2)%Z)
    by (symmetry; apply Z.quot_div_nonneg; lia).
  assert (Qh : (h / 2 = Z.quot h 2)%Z)
    by (symmetry; apply Z.quot_div_nonneg; lia).
  assert (Sx : to_unsigned x0 = shift x0).
  { unfold shift. destruct (Z.ltb_spec x0 0).
    - apply to_unsigned_neg; lia.
    - apply to_unsigned_nonneg; lia. }
  assert (Sy : to_unsigned y0 = shift y0).
  { unfold shift. destruct (Z.ltb_spec y0 0).
    - apply to_unsigned_neg; lia.
    - apply to_unsigned_nonneg; lia. }
  assert (Cx : to_int (to_unsigned (to_unsigned x0 + w / 2)) = cx).
  { unfold to_unsigned at 1 2. rewrite Zplus_mod_idemp_l.
    fold (to_unsigned (x0 + w / 2)). rewrite Qw.
    now apply to_int_to_unsigned. }
  assert (Cy : to_int (to_unsigned (to_unsigned y0 + h / 2)) = cy).
  { unfold to_unsigned at 1 2. rewrite Zplus_mod_idemp_l.
    fold (to_unsigned (y0 + h / 2)). rewrite Qh.
    now apply to_int_to_unsigned. }
  unfold drawFrame. rewrite Ew, Eh, Cx, Cy, Sx, Sy.
  reflexivity.
Qed.

Lemma X21_drawFrame_witness :
  drawFrame (to_unsigned (-59)) (to_unsigned 40)
            (to_unsigned 20) (to_unsigned 21)
  = [ cairo_set_line_width 3;
      cairo_set_operator CAIRO_OPERATOR_DIFFERENCE;
      cairo_rectangle (IZR (-59 + 2 ^ 32) - 3 / 2) (IZR 40 - 3 / 2)
                      (IZR 20 + 3) (IZR 21 + 3);
      cairo_stroke;
      cairo_move_to (IZR (-49 - 10)) (IZR (50 - 10));
      cairo_line_to (IZR (-49 + 10)) (IZR (50 + 10));
      cairo_move_to (IZR (-49 - 10)) (IZR (50 + 10));
      cairo_line_to (IZR (-49 + 10)) (IZR (50 - 10));
      cairo_stroke ].
Proof.
  apply (X21_drawFrame (-59) 40 20 21); cbn; lia.
Defined.

(** ** Parameter registration (lines 57-94) *)

Module RegistrationFacts.

Import String Ascii Registration.
Local Open Scope string_scope.
Local Open Scope nat_scope.

Lemma region_params_length (i : nat) : List.length (region_params i) = 8.
Proof. reflexivity. Qed.

Lemma flat_map_region_length (s n : nat) :
  List.length (flat_map region_params (seq s n)) = 8 * n.
Proof.
  revert s. induction n as [ | n IH ]; intros s; [ reflexivity | ].
  cbn [seq flat_map]. rewrite length_app, region_params_length, IH. lia.
Qed.

(** The parameters of the regions after those of the first [i] regions. *)
Lemma flat_map_region_skipn (s n i : nat) :
  i <= n ->
  skipn (8 * i) (flat_map region_params (seq s n))
  = flat_map region_params (seq (s + i) (n - i)).
Proof.
  revert s n. induction i as [ | i IH ]; intros s n Hi.
  - rewrite Nat.mul_0_r, Nat.add_0_r, Nat.sub_0_r. reflexivity.
  - destruct n as [ | n ]; [ lia | ].
    cbn [seq flat_map]. replace (8 * S i) with (8 * i + 8) by lia.
    rewrite <- skipn_skipn.
    replace (skipn 8 (region_params s
                      ++ flat_map region_params (seq (S s) n))%list)
      with (flat_map region_params (seq (S s) n)) by reflexivity.
    rewrite IH by lia.
    replace (S s + i) with (s + S i) by lia. reflexivity.
Qed.

Lemma region_name_not_size_y (i : nat) (p : param_info) :
  In p (region_params i) -> param_name p <> "Source Size Y".
Proof.
  intros Hp E. unfold region_params in Hp. cbn [In] in Hp.
  repeat (destruct Hp as [<- | Hp]; [ cbn in E; discriminate E | ]).
  exact Hp.
Qed.

Lemma global_name_not_size_y (p : param_info) :
  In p global_params -> param_name p <> "Source Size Y".
Proof.
  intros Hp E. unfold global_params in Hp. cbn [In] in Hp.
  repeat (destruct Hp as [<- | Hp]; [ cbn in E; discriminate E | ]).
  exact Hp.
Qed.

(** X22: the constructor registers seven parameters of the filter and then
    eight for every region, so that the parameters of region [i] have the
    indices 7 + 8 i to 7 + 8 i + 7.  The member [srcSize.y], at index
    7 + 8 i + 4, is registered under the name of [srcSize.x], and no
    parameter has the name Source Size Y. *)
Theorem X22_registration (n : nat) :
  List.length (registered_params n) = 7 + 8 * n /\
  (forall i, i < n ->
     firstn 8 (skipn (7 + 8 * i) (registered_params n)) = region_params i /\
     nth_error (registered_names n) (7 + 8 * i + 3) = Some "Source Size X" /\
     nth_error (registered_names n) (7 + 8 * i + 4) = Some "Source Size X") /\
  ~ In "Source Size Y" (registered_names n).
Proof.
  split; [ | split ].
  - unfold registered_params.
    rewrite length_app, flat_map_region_length. reflexivity.
  - intros i Hi.
    assert (Hs : skipn (7 + 8 * i) (registered_params n)
                 = (region_params i
                    ++ flat_map region_params (seq (S i) (n - S i)))%list).
    { unfold registered_params.
      replace (7 + 8 * i) with (8 * i + 7) by lia.
      rewrite <- skipn_skipn.
      replace (skipn 7 (global_params
                        ++ flat_map region_params (seq 0 n))%list)
        with (flat_map region_params (seq 0 n)) by reflexivity.
      rewrite flat_map_region_skipn by lia.
      replace (n - i) with (S (n - S i)) by lia.
      reflexivity. }
    split; [ rewrite Hs; reflexivity | ].
    assert (Hn : forall k, k < 8 ->
      nth_error (registered_names n) (7 + 8 * i + k)
      = nth_error (map param_name (region_params i)) k).
    { intros k Hk. unfold registered_names.
      rewrite <- (firstn_skipn (7 + 8 * i) (registered_params n)) at 1.
      rewrite map_app, nth_error_app2;
        rewrite length_map, length_firstn;
        assert (Hl : List.length (registered_params n) = 7 + 8 * n)
          by (unfold registered_params;
              rewrite length_app, flat_map_region_length; reflexivity);
        rewrite Hl; [ | lia ].
      replace (7 + 8 * i + k - Nat.min (7 + 8 * i) (7 + 8 * n)) with k by lia.
      rewrite Hs, map_app. apply nth_error_app1.
      rewrite length_map, region_params_length. exact Hk. }
    split; rewrite Hn by lia; reflexivity.
  - unfold registered_names, registered_params. intros Hin.
    apply in_map_iff in Hin. destruct Hin as (p & Hname & Hp).
    apply in_app_or in Hp. destruct Hp as [Hp | Hp].
    + now apply (global_name_not_size_y p).
    + apply in_flat_map in Hp. destruct Hp as (i & _ & Hp).
      now apply (region_name_not_size_y i p).
Qed.

(** The three regions of the filter: 31 parameters, the last region from
    index 23 on. *)
Lemma X22_registration_witness :
  List.length (registered_params numRegions) = 31 /\
  firstn 8 (skipn 23 (registered_params numRegions)) = region_params 2 /\
  nth_error (registered_names numRegions) 27 = Some "Source Size X".
Proof.
  destruct (X22_registration numRegions) as (Hl & Hr & _).
  split; [ exact Hl | ].
  assert (H2 : 2 < numRegions) by (unfold numRegions; lia).
  destruct (Hr 2 H2) as (Hf & _ & Hy).
  split; [ exact Hf | exact Hy ].
Defined.

End RegistrationFacts.
